(** * Tournament scheduling and standings engine of [src/App.js]

    A shallow embedding of the four handlers of [ChampionshipDetail] that
    carry the engine logic:

    - [handleRecalculateStandings] (standings fold, ranking, upsert),
    - [handleGenerateGroups]       (guard, shuffle, striped assignment),
    - [handleGenerateMatches]      (round-robin schedule per group),
    - [handleSaveManualMatch]      (manual fixture under the group "Avulso").

    JavaScript numbers are doubles; all numbers here are integers and are
    modelled as [Z], with the rounding of a sum or difference that leaves
    the exactly representable range written out ([roundDouble]).  [null]
    scores are [None], strings are [string] (their UTF-8 bytes), arrays are
    [list], the [Map] of participants is a [gmap].  Objects that the source
    mutates through a reference obtained from [Array.prototype.find] are
    modelled as an update of the array at the index of the object found.
    An exception that ends a handler is part of the handler's result. *)

From Stdlib Require Import QArith.
From stdpp Require Import base decidable option numbers list strings gmap sorting.

Open Scope list_scope.
Open Scope Z_scope.


(** ** Data model *)

(** A player or a team, as stored in [participantMap]. *)
Record Participant := mkParticipant {
  p_id : string;
  p_name : string
}.

(** An element of [championship.groups]. *)
Record Group := mkGroup {
  g_name : string;
  g_participantIds : list string
}.

(** A document of the [matches] collection. *)
Record Match := mkMatch {
  m_stage : string;
  m_groupName : string;
  m_homeParticipantId : string;
  m_awayParticipantId : string;
  m_homeParticipantName : string;
  m_awayParticipantName : string;
  m_homeSets : option Z;
  m_awaySets : option Z;
  m_status : string
}.

(** A row of a standings table. *)
Record Row := mkRow {
  participantId : string;
  played : Z;
  wins : Z;
  losses : Z;
  setsFor : Z;
  setsAgainst : Z;
  setDifference : Z;
  points : Z
}.

(** An element of [championship.standings]. *)
Record GroupStandings := mkGroupStandings {
  s_groupName : string;
  s_table : list Row
}.

(** [championship.config.groupStage]. *)
Record GroupStage := mkGroupStage {
  generated : bool;
  numGroups : Z;
  numAdvancing : Z;
  matchFormat : string
}.

(** The fields of a championship document that the handlers read or write. *)
Record Championship := mkChampionship {
  c_participantIds : list string;
  c_groupStage : GroupStage;
  c_groups : list Group;
  c_standings : list GroupStandings
}.

#[global] Instance Participant_eq_dec : EqDecision Participant.
Proof. solve_decision. Defined.
#[global] Instance Group_eq_dec : EqDecision Group.
Proof. solve_decision. Defined.
#[global] Instance Match_eq_dec : EqDecision Match.
Proof. solve_decision. Defined.
#[global] Instance Row_eq_dec : EqDecision Row.
Proof. solve_decision. Defined.
#[global] Instance GroupStandings_eq_dec : EqDecision GroupStandings.
Proof. solve_decision. Defined.

(** ** JavaScript primitives used by the handlers *)

(** [ToNumber] on a score: [null] counts as [0] both under [+=] and under
    [>]. *)
Definition toNumber (v : option Z) : Z := default 0 v.

(** The value of an integer as a double.  Every integer of magnitude up to
    [2^53] is a double; a larger one is rounded to 53 significant bits: to
    the nearest double and, halfway between two doubles, to the one whose
    significand is even.  Magnitudes beyond the largest double (about
    [1.8e308]), where JavaScript goes on with [Infinity], are outside the
    model. *)
Definition roundDouble (z : Z) : Z :=
  if decide (Z.abs z ≤ 2 ^ 53) then z
  else
    let ulp := 2 ^ (Z.log2 (Z.abs z) - 52) in
    let q := Z.abs z `div` ulp in
    let r := Z.abs z `mod` ulp in
    let significand :=
      if decide (2 * r < ulp) then q
      else if decide (ulp < 2 * r) then q + 1
      else if Z.even q then q else q + 1 in
    Z.sgn z * (significand * ulp).

(** [x + y] and [x - y] on doubles that hold integers: the exact result,
    rounded. *)
Definition addNumber (x y : Z) : Z := roundDouble (x + y).

Definition subNumber (x y : Z) : Z := roundDouble (x - y).

(** [String.fromCharCode(code)]: the string of the one code unit
    [code mod 2^16], here in its UTF-8 bytes (one byte below 128, two below
    2048, else three), so that two code units give the same string exactly
    when they are equal. *)
Definition fromCharCode (code : Z) : string :=
  let c := code `mod` 65536 in
  let byte (n : Z) := Ascii.ascii_of_N (Z.to_N n) in
  if decide (c < 128) then String (byte c) EmptyString
  else if decide (c < 2048)
  then String (byte (192 + c `div` 64))
         (String (byte (128 + c `mod` 64)) EmptyString)
  else String (byte (224 + c `div` 4096))
         (String (byte (128 + (c `div` 64) `mod` 64))
            (String (byte (128 + c `mod` 64)) EmptyString)).

(** [arr.find(pred)] returns a reference into the array; the reference is
    the index of the first element satisfying the predicate. *)
Definition findRef {A} (P : A → Prop) `{∀ x, Decision (P x)} (arr : list A)
  : option nat := fst <$> list_find P arr.

(** Mutating the object behind a reference, or doing nothing when [find]
    returned [undefined]. *)
Definition withRef {A} (ref : option nat) (f : A → A) (arr : list A) : list A :=
  match ref with
  | Some i => alter f i arr
  | None => arr
  end.

(** [Array.prototype.sort(cmp)] is stable: an element stays in front of a
    later one unless the comparator returns a positive number for the
    pair.  Any stable sort returns the same array for a consistent
    comparator; a stable insertion sort is used as its model. *)
Fixpoint sortInsert {A} (cmp : A → A → Z) (x : A) (l : list A) : list A :=
  match l with
  | [] => [x]
  | y :: l' => if decide (0 < cmp x y) then y :: sortInsert cmp x l' else x :: l
  end.

Fixpoint sortBy {A} (cmp : A → A → Z) (l : list A) : list A :=
  match l with
  | [] => []
  | x :: l' => sortInsert cmp x (sortBy cmp l')
  end.

(** ** [handleRecalculateStandings] *)

(** The object literal of lines 507-511. *)
Definition newRow (pid : string) : Row :=
  {| participantId := pid; played := 0; wins := 0; losses := 0;
     setsFor := 0; setsAgainst := 0; setDifference := 0; points := 0 |}.

(** Lines 520-529: the update of [homeParticipantStats].  The counters
    [played], [wins], [losses] and [points] grow by one or two for each
    element of an array, which holds fewer than [2^32] elements: they stay
    far inside the range where the addition of doubles is exact.  The two
    sums of sets add scores of any size and are rounded. *)
Definition creditHome (m : Match) (s : Row) : Row :=
  let won := bool_decide (toNumber (m_homeSets m) > toNumber (m_awaySets m)) in
  {| participantId := participantId s;
     played := played s + 1;
     wins := if won then wins s + 1 else wins s;
     losses := if won then losses s else losses s + 1;
     setsFor := addNumber (setsFor s) (toNumber (m_homeSets m));
     setsAgainst := addNumber (setsAgainst s) (toNumber (m_awaySets m));
     setDifference := setDifference s;
     points := if won then points s + 2 else points s + 1 |}.

(** Lines 532-541: the update of [awayParticipantStats]. *)
Definition creditAway (m : Match) (s : Row) : Row :=
  let won := bool_decide (toNumber (m_awaySets m) > toNumber (m_homeSets m)) in
  {| participantId := participantId s;
     played := played s + 1;
     wins := if won then wins s + 1 else wins s;
     losses := if won then losses s else losses s + 1;
     setsFor := addNumber (setsFor s) (toNumber (m_awaySets m));
     setsAgainst := addNumber (setsAgainst s) (toNumber (m_homeSets m));
     setDifference := setDifference s;
     points := if won then points s + 2 else points s + 1 |}.

(** The body of [groupMatches.forEach]: both rows are looked up first, then
    mutated in turn. *)
Definition applyMatch (standings : list Row) (m : Match) : list Row :=
  let homeParticipantStats :=
    findRef (λ s, participantId s = m_homeParticipantId m) standings in
  let awayParticipantStats :=
    findRef (λ s, participantId s = m_awayParticipantId m) standings in
  withRef awayParticipantStats (creditAway m)
    (withRef homeParticipantStats (creditHome m) standings).

(** Line 513. *)
Definition isGroupMatch (groupName : string) (m : Match) : Prop :=
  m_groupName m = groupName ∧ m_status m = "completed".

#[global] Instance isGroupMatch_dec groupName m : Decision (isGroupMatch groupName m).
Proof. unfold isGroupMatch. apply _. Defined.

Definition groupMatches (updatedMatches : list Match) (groupName : string)
  : list Match := filter (isGroupMatch groupName) updatedMatches.

(** Lines 507-543: the rows after the fold. *)
Definition foldedStandings (group : Group) (updatedMatches : list Match)
    (groupName : string) : list Row :=
  foldl applyMatch (newRow <$> g_participantIds group)
        (groupMatches updatedMatches groupName).

(** Lines 545-547. *)
Definition setDiff (s : Row) : Row :=
  {| participantId := participantId s; played := played s; wins := wins s;
     losses := losses s; setsFor := setsFor s; setsAgainst := setsAgainst s;
     setDifference := subNumber (setsFor s) (setsAgainst s);
     points := points s |}.

(** Lines 549-554: the comparator handed to [sort].  Only the sign of the
    number returned matters to [sort], and the difference of two different
    doubles has the sign of their exact difference. *)
Definition compareRows (a b : Row) : Z :=
  if decide (points a ≠ points b) then points b - points a
  else if decide (setDifference a ≠ setDifference b)
       then setDifference b - setDifference a
  else if decide (setsFor a ≠ setsFor b) then setsFor b - setsFor a
  else 0.

(** Lines 507-554: the table stored for the group. *)
Definition standingsTable (group : Group) (updatedMatches : list Match)
    (groupName : string) : list Row :=
  sortBy compareRows (setDiff <$> foldedStandings group updatedMatches groupName).

(** Lines 556-557. *)
Definition upsertStandings (standings : list GroupStandings)
    (groupName : string) (table : list Row) : list GroupStandings :=
  filter (λ s, s_groupName s ≠ groupName) standings
    ++ [ {| s_groupName := groupName; s_table := table |} ].

(** [onUpdateChampionship(champ.id, { standings })]. *)
Definition setStandings (champ : Championship) (st : list GroupStandings)
  : Championship :=
  {| c_participantIds := c_participantIds champ;
     c_groupStage := c_groupStage champ;
     c_groups := c_groups champ;
     c_standings := st |}.

(** The handler: the championship after the call.  Nothing is written when
    no group carries the name. *)
Definition handleRecalculateStandings (champ : Championship)
    (updatedMatches : list Match) (groupName : string) : Championship :=
  match list_find (λ g, g_name g = groupName) (c_groups champ) with
  | None => champ
  | Some (_, group) =>
      setStandings champ
        (upsertStandings (c_standings champ) groupName
           (standingsTable group updatedMatches groupName))
  end.

(** ** [handleGenerateGroups] *)

(** Lines 465-467: the participants of the championship that are still in
    [participantMap], in the order of [championship.participantIds]. *)
Definition participantsOf (participantMap : gmap string Participant)
    (champ : Championship) : list Participant :=
  omap (λ id, participantMap !! id) (c_participantIds champ).

(** [`Grupo ${String.fromCharCode(65 + i)}`]. *)
Definition groupLabel (i : nat) : string :=
  "Grupo " +:+ fromCharCode (65 + Z.of_nat i).

(** The message of the [RangeError] with which [Array.from] ends the call
    when the length asked for is [2^32] or more. *)
Definition rangeError : string := "RangeError: Invalid array length".

(** Lines 595-598: [Array.from({ length: numGroups }, ...)], or [None] when
    it throws.  An array has fewer than [2^32] elements. *)
Definition emptyGroups (numGroups : Z) : option (list Group) :=
  if decide (numGroups < 2 ^ 32)
  then Some ((λ i, {| g_name := groupLabel i; g_participantIds := [] |})
               <$> seq 0 (Z.to_nat numGroups))
  else None.

(** [g.participantIds.push(pid)]. *)
Definition pushParticipant (pid : string) (g : Group) : Group :=
  {| g_name := g_name g; g_participantIds := g_participantIds g ++ [pid] |}.

(** The body of [shuffledParticipants.forEach((p, index) => ...)].  The
    index is always inside [newGroups], as [index % numGroups] is smaller
    than [numGroups]. *)
Definition assignParticipant (numGroups : Z) (newGroups : list Group)
    (ip : nat * Participant) : list Group :=
  alter (pushParticipant (p_id ip.2))
        (Z.to_nat (Z.rem (Z.of_nat ip.1) numGroups)) newGroups.

(** Lines 594-602: [newGroups] after the loop, or [None] when the creation
    of the array threw. *)
Definition distribute (numGroups : Z) (shuffledParticipants : list Participant)
  : option (list Group) :=
  newGroups ← emptyGroups numGroups;
  Some (foldl (assignParticipant numGroups) newGroups
              (imap (λ index p, (index, p)) shuffledParticipants)).

(** Lines 604-607. *)
Definition initialStandings (newGroups : list Group) : list GroupStandings :=
  (λ g, {| s_groupName := g_name g;
           s_table := newRow <$> g_participantIds g |}) <$> newGroups.

Definition groupsAlert : string :=
  "É necessário ter ao menos 2 participantes e 1 grupo para gerar as chaves.".

(** The handler.  [shuffledParticipants] stands for the array that
    [[...participants].sort(() => 0.5 - Math.random())] returned.  The
    result is what ended the call before the write, if anything did (the
    message passed to [alert], or the message of the exception thrown),
    and the championship after the call. *)
Definition handleGenerateGroups (champ : Championship)
    (participants shuffledParticipants : list Participant)
  : option string * Championship :=
  if decide (Z.of_nat (length participants) < 2
             ∨ numGroups (c_groupStage champ) < 1)
  then (Some groupsAlert, champ)
  else
    match distribute (numGroups (c_groupStage champ)) shuffledParticipants with
    | None => (Some rangeError, champ)
    | Some newGroups =>
        (None,
         {| c_participantIds := c_participantIds champ;
            c_groupStage :=
              {| generated := true;
                 numGroups := numGroups (c_groupStage champ);
                 numAdvancing := numAdvancing (c_groupStage champ);
                 matchFormat := matchFormat (c_groupStage champ) |};
            c_groups := newGroups;
            c_standings := initialStandings newGroups |})
    end.

(** *** The shuffle of line 593

    The comparator [() => 0.5 - Math.random()] ignores the elements it is
    asked about.  A run of the engine's sort is therefore a finite tree: it
    either returns, or calls the comparator and goes on according to the
    sign of the number it got back. *)
Inductive SortRun (R : Type) : Type :=
  | Done (r : R)
  | Compare (onNegative onZero onPositive : SortRun R).
Arguments Done {R} r.
Arguments Compare {R} onNegative onZero onPositive.

Fixpoint bindRun {R S} (t : SortRun R) (k : R → SortRun S) : SortRun S :=
  match t with
  | Done r => k r
  | Compare n z p => Compare (bindRun n k) (bindRun z k) (bindRun p k)
  end.

(** [Math.random()] is taken to return [k / 2^(bits+1)] for a [k] drawn
    uniformly from [0 .. 2^(bits+1) - 1].  [randomCompare] is
    [0.5 - Math.random()] scaled by [2^(bits+1)], which has the same sign. *)
Definition outcomes (bits : nat) : list Z := seqZ 0 (2 ^ Z.of_nat (S bits)).

Definition randomCompare (bits : nat) (k : Z) : Z := 2 ^ Z.of_nat bits - k.

(** The chance that the number returned by the comparator satisfies [P]:
    the share of the outcomes of [Math.random()] for which it does. *)
Definition chance (bits : nat) (P : Z → Prop) `{∀ v, Decision (P v)} : Q :=
  Qmake (Z.of_nat (length (filter (λ k, P (randomCompare bits k))
                                  (outcomes bits))))
        (Z.to_pos (2 ^ Z.of_nat (S bits))).

(** The run of a tree on the numbers drawn, one per call of the comparator. *)
Fixpoint runSort {R} (bits : nat) (t : SortRun R) (ks : list Z) : option R :=
  match t, ks with
  | Done r, _ => Some r
  | Compare n z p, k :: ks' =>
      if decide (randomCompare bits k < 0) then runSort bits n ks'
      else if decide (randomCompare bits k = 0) then runSort bits z ks'
      else runSort bits p ks'
  | Compare _ _ _, [] => None
  end.

(** The probability that a run returns [out]. *)
Fixpoint probability {R} `{EqDecision R} (bits : nat) (t : SortRun R) (out : R) : Q :=
  match t with
  | Done r => if decide (r = out) then 1%Q else 0%Q
  | Compare n z p =>
      (chance bits (λ v, (v < 0)%Z) * probability bits n out
       + chance bits (λ v, v = 0%Z) * probability bits z out
       + chance bits (λ v, (0 < v)%Z) * probability bits p out)%Q
  end.

(** The number of calls of the comparator a run can make at most. *)
Fixpoint depth {R} (t : SortRun R) : nat :=
  match t with
  | Done _ => 0%nat
  | Compare n z p => S (depth n `max` (depth z `max` depth p))
  end.

(** All the sequences of [d] numbers that [Math.random()] can return in
    [d] calls; they are equally likely. *)
Fixpoint drawSequences (bits : nat) (d : nat) : list (list Z) :=
  match d with
  | O => [[]]
  | S d' => k ← outcomes bits; cons k <$> drawSequences bits d'
  end.

(** How many of them make the run return [out]. *)
Definition favourable {R} `{EqDecision R} (bits d : nat) (t : SortRun R)
    (out : R) : nat :=
  length (filter (λ ks, runSort bits t ks = Some out) (drawSequences bits d)).

(** A number of the form [m / 2^k]. *)
Definition dyadic (q : Q) : Prop :=
  ∃ (m : Z) (k : nat), (q * inject_Z (2 ^ Z.of_nat k) == inject_Z m)%Q.

(** Every permutation of [l] is as likely as every other to be returned:
    each has one chance in [(length l)!]. *)
Definition uniformShuffle (bits : nat) (t : SortRun (list Participant))
    (l : list Participant) : Prop :=
  ∀ out, l ≡ₚ out →
    (probability bits t out == 1 # Pos.of_nat (fact (length l)))%Q.

(** One sort among those the trees cover, for illustration: the insertion
    sort [sortBy] run with the random comparator.  (The sort of a given
    engine is another tree.) *)
Definition askCompare : SortRun Z := Compare (Done (-1)) (Done 0) (Done 1).

Fixpoint sortInsertRun {A} (x : A) (l : list A) : SortRun (list A) :=
  match l with
  | [] => Done [x]
  | y :: l' =>
      bindRun askCompare (λ v,
        if decide (0 < v)
        then bindRun (sortInsertRun x l') (λ r, Done (y :: r))
        else Done (x :: l))
  end.

Fixpoint sortByRun {A} (l : list A) : SortRun (list A) :=
  match l with
  | [] => Done []
  | x :: l' => bindRun (sortByRun l') (sortInsertRun x)
  end.

(** ** [handleGenerateMatches] *)

(** [participantMap.get(id)?.name || '?']. *)
Definition displayName (participantMap : gmap string Participant)
    (id : string) : string :=
  match participantMap !! id with
  | Some p => if decide (p_name p = "") then "?" else p_name p
  | None => "?"
  end.

(** Lines 625-635. *)
Definition matchBase (participantMap : gmap string Participant)
    (groupName homeId awayId : string) : Match :=
  {| m_stage := "group";
     m_groupName := groupName;
     m_homeParticipantId := homeId;
     m_awayParticipantId := awayId;
     m_homeParticipantName := displayName participantMap homeId;
     m_awayParticipantName := displayName participantMap awayId;
     m_homeSets := None;
     m_awaySets := None;
     m_status := "pending" |}.

(** Lines 642-648: [matchBase] with the two sides exchanged. *)
Definition returnMatch (participantMap : gmap string Participant)
    (base : Match) (homeId awayId : string) : Match :=
  {| m_stage := m_stage base;
     m_groupName := m_groupName base;
     m_homeParticipantId := awayId;
     m_awayParticipantId := homeId;
     m_homeParticipantName := displayName participantMap awayId;
     m_awayParticipantName := displayName participantMap homeId;
     m_homeSets := m_homeSets base;
     m_awaySets := m_awaySets base;
     m_status := m_status base |}.

(** The body of the inner loop: the documents set on the batch for the
    pair [(i, j)]. *)
Definition pairFixtures (participantMap : gmap string Participant)
    (format groupName homeId awayId : string) : list Match :=
  let base := matchBase participantMap groupName homeId awayId in
  base :: (if decide (format = "home_and_away")
           then [returnMatch participantMap base homeId awayId]
           else []).

(** Lines 620-651 for one group: [i] runs over all indices, [j] over the
    indices after [i]; both stay inside the array, so the two reads never
    yield [undefined]. *)
Definition groupFixtures (participantMap : gmap string Participant)
    (format : string) (group : Group) : list Match :=
  let ids := g_participantIds group in
  i ← seq 0 (length ids);
  j ← seq (S i) (length ids - S i);
  pairFixtures participantMap format (g_name group) (ids !!! i) (ids !!! j).

(** The handler: the documents committed with the batch. *)
Definition handleGenerateMatches (participantMap : gmap string Participant)
    (champ : Championship) : list Match :=
  group ← c_groups champ;
  groupFixtures participantMap (matchFormat (c_groupStage champ)) group.

(** ** [handleSaveManualMatch] *)

(** The state [manualMatchData]: the values of the two selects. *)
Record ManualMatchData := mkManualMatchData {
  homeParticipantId : string;
  awayParticipantId : string
}.

Definition manualAlert : string := "Selecione dois participantes diferentes.".

(** The handler: either the message passed to [alert], or the document
    passed to [addMatch].  A string is falsy exactly when it is empty. *)
Definition handleSaveManualMatch (participantMap : gmap string Participant)
    (manualMatchData : ManualMatchData) : string + Match :=
  let home := homeParticipantId manualMatchData in
  let away := awayParticipantId manualMatchData in
  if decide (home = "" ∨ away = "" ∨ home = away)
  then inl manualAlert
  else inr {| m_stage := "group";
              m_groupName := "Avulso";
              m_homeParticipantId := home;
              m_awayParticipantId := away;
              m_homeParticipantName := displayName participantMap home;
              m_awayParticipantName := displayName participantMap away;
              m_homeSets := None;
              m_awaySets := None;
              m_status := "pending" |}.

(** ** The fold seen from one row

    What the handler's fold does to the row found for one participant, in
    terms of the handler's own two updates. *)

(** One completed fixture seen from the row of one participant: credited as
    home when named at home, as away when named away. *)
Definition tallyStep (s : Row) (m : Match) : Row :=
  let s1 := if decide (m_homeParticipantId m = participantId s)
            then creditHome m s else s in
  if decide (m_awayParticipantId m = participantId s)
  then creditAway m s1 else s1.

(** The row of [pid] after all the fixtures of [ms], from all counters zero. *)
Definition tally (ms : list Match) (pid : string) : Row :=
  foldl tallyStep (newRow pid) ms.

(** The rows after the fixtures [ms], position by position: the first row
    of each participant carries the tally, a later row with the same id is
    never found by [find] and stays at zero. *)
Definition tallied (ids : list string) (ms : list Match) : list Row :=
  imap (λ i pid, if decide (pid ∈ take i ids) then newRow pid
                 else tally ms pid) ids.

(** ** Sums *)

(** The sum of a column of a table, or of a quantity over fixtures. *)
Definition total {A} (f : A → Z) (l : list A) : Z :=
  foldr Z.add 0 (f <$> l).

(** ** The specification's reading of the standings

    These definitions follow the words of the specification, in the
    arithmetic of the integers, and are what the handler is compared
    with. *)

(** The sets of one side of a fixture; a score that was never set counts
    as no set. *)
Definition scoreOf (v : option Z) : Z :=
  match v with
  | Some n => n
  | None => 0
  end.

(** The fixtures a recomputation counts: those of the group that are
    completed, in their order. *)
Definition completedOf (groupName : string) (fixtures : list Match)
  : list Match :=
  filter (λ m, m_groupName m = groupName ∧ m_status m = "completed") fixtures.

(** The update of one row for one completed fixture, [own] being the sets of
    the row's side and [other] those of the opponent: one more game, the
    sets added, and a win with two points when the own sets are strictly
    more, otherwise a loss with one point. *)
Definition specCredit (own other : Z) (s : Row) : Row :=
  {| participantId := participantId s;
     played := played s + 1;
     wins := if decide (own > other) then wins s + 1 else wins s;
     losses := if decide (own > other) then losses s else losses s + 1;
     setsFor := setsFor s + own;
     setsAgainst := setsAgainst s + other;
     setDifference := setDifference s;
     points := if decide (own > other) then points s + 2 else points s + 1 |}.

(** One completed fixture applied to the row of a participant: the home
    update when the participant is the home side, the symmetric update when
    the participant is the away side. *)
Definition specStep (s : Row) (m : Match) : Row :=
  let s1 := if decide (m_homeParticipantId m = participantId s)
            then specCredit (scoreOf (m_homeSets m)) (scoreOf (m_awaySets m)) s
            else s in
  if decide (m_awayParticipantId m = participantId s)
  then specCredit (scoreOf (m_awaySets m)) (scoreOf (m_homeSets m)) s1
  else s1.

(** After the fold: the set difference of the row. *)
Definition specDifference (s : Row) : Row :=
  {| participantId := participantId s; played := played s; wins := wins s;
     losses := losses s; setsFor := setsFor s; setsAgainst := setsAgainst s;
     setDifference := setsFor s - setsAgainst s; points := points s |}.

(** The row of a participant: all counters zero, then every fixture of
    [fixtures] applied in turn, then the set difference. *)
Definition specRow (fixtures : list Match) (pid : string) : Row :=
  specDifference (foldl specStep (newRow pid) fixtures).

(** The sets played in a fixture, and the condition under which the sums of
    sets of a recomputation are sums of integers: the sets of the counted
    fixtures add up to no more than [2^53], the range in which every
    integer is a double. *)
Definition setsPlayed (m : Match) : Z :=
  Z.abs (scoreOf (m_homeSets m)) + Z.abs (scoreOf (m_awaySets m)).

Definition safeScores (fixtures : list Match) : Prop :=
  total setsPlayed fixtures ≤ 2 ^ 53.

#[global] Instance safeScores_dec fixtures : Decision (safeScores fixtures).
Proof. unfold safeScores. apply _. Defined.

(** A row whose sums of sets, and their difference, are within [bound]. *)
Definition withinRange (bound : Z) (s : Row) : Prop :=
  Z.abs (setsFor s) ≤ bound ∧ Z.abs (setsAgainst s) ≤ bound
  ∧ Z.abs (setsFor s - setsAgainst s) ≤ bound.


(** Equal on the three ranking keys. *)
Definition sameRank (a b : Row) : Prop :=
  points a = points b ∧ setDifference a = setDifference b
  ∧ setsFor a = setsFor b.

#[global] Instance sameRank_dec a b : Decision (sameRank a b).
Proof. unfold sameRank. apply _. Defined.

(** The invariant linking the counters of a row. *)
Definition rowBalanced (s : Row) : Prop :=
  played s = wins s + losses s ∧ points s = 2 * wins s + losses s.

(** ** The specification's reading of the schedule *)

(** The two sides of a fixture. *)
Definition sides (m : Match) : string * string :=
  (m_homeParticipantId m, m_awayParticipantId m).

(** The pairs [(p_i, p_j)] with [i < j], in the order of [i], then [j]. *)
Fixpoint orderedPairs (ids : list string) : list (string * string) :=
  match ids with
  | [] => []
  | x :: l => (pair x <$> l) ++ orderedPairs l
  end.

(** One fixture per pair, followed at once by its mirror in the
    home-and-away format. *)
Definition schedule (format : string) (ids : list string)
  : list (string * string) :=
  p ← orderedPairs ids;
  if decide (format = "home_and_away") then [p; (p.2, p.1)] else [p].

(** A fixture as the generator leaves it: not played, scores unset. *)
Definition isPending (m : Match) : Prop :=
  m_status m = "pending" ∧ m_homeSets m = None ∧ m_awaySets m = None.

(** ** The specification's reading of the partition *)

(** The ids of [l] standing at the indices [i] with [i mod g = k], in the
    order of [l]: what group [k] of [g] receives. *)
Definition stripe (g k : nat) (l : list string) : list string :=
  (filter (λ ip, (ip.1 `mod` g)%nat = k) (imap pair l)).*2.

(** The groups as the specification describes them. *)
Definition striped (g : nat) (l : list string) : list Group :=
  (λ k, {| g_name := groupLabel k; g_participantIds := stripe g k l |})
    <$> seq 0 g.

(** ** The specification's reading of the manual fixture *)

(** The call ended in the alert and created nothing. *)
Definition refused (r : string + Match) : Prop := ∃ msg, r = inl msg.

(** The condition of the specification: the same participant on both
    sides, or a side that is not a known participant. *)
Definition invalidParticipants (participantMap : gmap string Participant)
    (d : ManualMatchData) : Prop :=
  homeParticipantId d = awayParticipantId d
  ∨ participantMap !! homeParticipantId d = None
  ∨ participantMap !! awayParticipantId d = None.

(** ** Further parts of the components

    The selections of the creation forms, the map of participants, and the
    handlers that save a score and the configuration. *)

(** [ChampionshipsManager.handleParticipantSelection] (lines 368-375): the
    new value of [champData.participantIds]. *)
Definition handleParticipantSelection (participantIds : list string)
    (participantId : string) : list string :=
  if decide (participantId ∈ participantIds)
  then filter (λ id, id ≠ participantId) participantIds
  else participantIds ++ [participantId].

(** [TeamsManager.handlePlayerSelection] (lines 247-258): the new value of
    [teamData.playerIds].  Both reads are inside [newPlayerIds], which has
    more than two elements when they happen. *)
Definition handlePlayerSelection (playerIds : list string)
    (playerId : string) : list string :=
  let newPlayerIds :=
    if decide (playerId ∈ playerIds)
    then filter (λ id, id ≠ playerId) playerIds
    else playerIds ++ [playerId] in
  if decide (2 < length newPlayerIds)%nat
  then [ newPlayerIds !!! (length newPlayerIds - 2)%nat;
         newPlayerIds !!! (length newPlayerIds - 1)%nat ]
  else newPlayerIds.

(** Lines 458-463: [participantMap], filled from the players or the teams
    with [map.set(p.id, p)]. *)
Definition participantMapOf (source : list Participant)
  : gmap string Participant :=
  foldl (λ map p, <[p_id p := p]> map) ∅ source.

(** A document of the [matches] collection together with its document id
    (line 481). *)
Record MatchDoc := mkMatchDoc {
  md_id : string;
  md_match : Match
}.

(** [parseInt(text, 10) || fallback] on the number [parseInt] returned,
    [None] standing for [NaN]: [NaN] and [0] are falsy. *)
Definition orFallback (fallback : Z) (parsed : option Z) : Z :=
  match parsed with
  | Some n => if decide (n = 0) then fallback else n
  | None => fallback
  end.

(** Lines 571-575 and the spread of line 578: the match with the fields of
    [updatedMatchData] written over it. *)
Definition withScore (parsedHome parsedAway : option Z) (m : Match) : Match :=
  {| m_stage := m_stage m;
     m_groupName := m_groupName m;
     m_homeParticipantId := m_homeParticipantId m;
     m_awayParticipantId := m_awayParticipantId m;
     m_homeParticipantName := m_homeParticipantName m;
     m_awayParticipantName := m_awayParticipantName m;
     m_homeSets := Some (orFallback 0 parsedHome);
     m_awaySets := Some (orFallback 0 parsedAway);
     m_status := "completed" |}.

(** Line 578: [updatedMatches]. *)
Definition updatedMatchesOf (matches : list MatchDoc) (editingMatch : MatchDoc)
    (parsedHome parsedAway : option Z) : list MatchDoc :=
  (λ m, if decide (md_id m = md_id editingMatch)
        then {| md_id := md_id m;
                md_match := withScore parsedHome parsedAway (md_match m) |}
        else m) <$> matches.

(** [handleSaveScore] (lines 569-585).  [parsedHome] and [parsedAway] are
    what [parseInt] returned for the two inputs.  The result is the document
    written by [updateMatch], if any, and the championship after the call. *)
Definition handleSaveScore (champ : Championship) (matches : list MatchDoc)
    (editingMatch : option MatchDoc) (parsedHome parsedAway : option Z)
  : option MatchDoc * Championship :=
  match editingMatch with
  | None => (None, champ)
  | Some e =>
      (Some {| md_id := md_id e;
               md_match := withScore parsedHome parsedAway (md_match e) |},
       if decide (m_stage (md_match e) = "group")
       then handleRecalculateStandings champ
              (md_match <$> updatedMatchesOf matches e parsedHome parsedAway)
              (m_groupName (md_match e))
       else champ)
  end.

(** [handleSaveConfig] (lines 658-673), for the group stage: the three
    numbers are what [parseInt] returned for the fields of the form; the
    other fields of the form are kept. *)
Definition handleSaveConfig (champ : Championship) (currentGroupStage : GroupStage)
    (parsedSets parsedNumGroups parsedNumAdvancing : option Z)
  : Z * Championship :=
  (orFallback 3 parsedSets,
   {| c_participantIds := c_participantIds champ;
      c_groupStage :=
        {| generated := generated currentGroupStage;
           numGroups := orFallback 1 parsedNumGroups;
           numAdvancing := orFallback 2 parsedNumAdvancing;
           matchFormat := matchFormat currentGroupStage |};
      c_groups := c_groups champ;
      c_standings := c_standings champ |}).

(** The edited fixture as the specification has it after the completion
    event: completed, with the two scores, everything else as it was. *)
Definition completedWith (m : Match) (homeSets awaySets : Z) : Match :=
  {| m_stage := m_stage m;
     m_groupName := m_groupName m;
     m_homeParticipantId := m_homeParticipantId m;
     m_awayParticipantId := m_awayParticipantId m;
     m_homeParticipantName := m_homeParticipantName m;
     m_awayParticipantName := m_awayParticipantName m;
     m_homeSets := Some homeSets;
     m_awaySets := Some awaySets;
     m_status := "completed" |}.

(** ** Measures on tables and schedules *)

(** A fixture whose two scores differ. *)
Definition decided (m : Match) : Prop :=
  toNumber (m_homeSets m) ≠ toNumber (m_awaySets m).

#[global] Instance decided_dec m : Decision (decided m).
Proof. unfold decided. apply _. Defined.

(** Both sides of the fixture have a row in the group. *)
Definition bothInGroup (group : Group) (m : Match) : Prop :=
  m_homeParticipantId m ∈ g_participantIds group
  ∧ m_awayParticipantId m ∈ g_participantIds group.

#[global] Instance bothInGroup_dec group m : Decision (bothInGroup group m).
Proof. unfold bothInGroup. apply _. Defined.

(** The fixture is played by [p]. *)
Definition involves (p : string) (m : Match) : Prop :=
  m_homeParticipantId m = p ∨ m_awayParticipantId m = p.

#[global] Instance involves_dec p m : Decision (involves p m).
Proof. unfold involves. apply _. Defined.

(** ** Sample data

    The group and results of the specification's scenario, in a
    championship with a second group. *)

Definition completedMatch (gn home away : string) (h a : Z) : Match :=
  {| m_stage := "group"; m_groupName := gn;
     m_homeParticipantId := home; m_awayParticipantId := away;
     m_homeParticipantName := home; m_awayParticipantName := away;
     m_homeSets := Some h; m_awaySets := Some a; m_status := "completed" |}.

Definition scenarioGroup : Group :=
  {| g_name := "Grupo A"; g_participantIds := ["A"; "B"; "C"] |}.

Definition scenarioMatches : list Match :=
  [ completedMatch "Grupo A" "A" "B" 3 1;
    completedMatch "Grupo A" "A" "C" 2 3;
    completedMatch "Grupo A" "B" "C" 3 0 ].

Definition scenarioChampionship : Championship :=
  {| c_participantIds := ["A"; "B"; "C"; "D"; "E"];
     c_groupStage := {| generated := true; numGroups := 2; numAdvancing := 2;
                        matchFormat := "single" |};
     c_groups := [ scenarioGroup;
                   {| g_name := "Grupo B"; g_participantIds := ["D"; "E"] |} ];
     c_standings :=
       [ {| s_groupName := "Grupo A";
            s_table := newRow <$> ["A"; "B"; "C"] |};
         {| s_groupName := "Grupo B"; s_table := newRow <$> ["D"; "E"] |} ] |}.

Definition sampleParticipants : list Participant :=
  [ mkParticipant "A" "Ana"; mkParticipant "B" "Bia"; mkParticipant "C" "Caio";
    mkParticipant "D" "Davi"; mkParticipant "E" "Eva" ].

(** A permutation of [sampleParticipants]: the first moved to the end. *)
Definition sampleShuffled : list Participant :=
  [ mkParticipant "B" "Bia"; mkParticipant "C" "Caio"; mkParticipant "D" "Davi";
    mkParticipant "E" "Eva"; mkParticipant "A" "Ana" ].

(** Results with a score at the edge of the integers that are doubles: A
    beat B by [2^53] sets to none, and C by one set to none. *)
Definition largeScoreMatches : list Match :=
  [ completedMatch "Grupo A" "A" "B" (2 ^ 53) 0;
    completedMatch "Grupo A" "A" "C" 1 0 ].

(** A championship asking for as many groups as no array can hold. *)
Definition hugeGroupsChampionship : Championship :=
  {| c_participantIds := ["A"; "B"; "C"; "D"; "E"];
     c_groupStage := {| generated := false; numGroups := 2 ^ 32;
                        numAdvancing := 2; matchFormat := "single" |};
     c_groups := [];
     c_standings := [] |}.

(** A championship asking for more groups than it has participants. *)
Definition manyGroupsChampionship : Championship :=
  {| c_participantIds := ["A"; "B"; "C"; "D"; "E"];
     c_groupStage := {| generated := false; numGroups := 7; numAdvancing := 2;
                        matchFormat := "single" |};
     c_groups := [];
     c_standings := [] |}.

Definition sampleTrio : list Participant :=
  [ mkParticipant "A" "Ana"; mkParticipant "B" "Bia"; mkParticipant "C" "Caio" ].

Definition sampleMap : gmap string Participant :=
  list_to_map ((λ p, (p_id p, p)) <$> sampleParticipants).

(** The fixtures of the scenario as documents, the second one not yet
    played. *)
Definition pendingDoc : MatchDoc :=
  {| md_id := "m2";
     md_match := matchBase sampleMap "Grupo A" "A" "C" |}.

Definition pendingDocs : list MatchDoc :=
  [ {| md_id := "m1"; md_match := completedMatch "Grupo A" "A" "B" 3 1 |};
    pendingDoc;
    {| md_id := "m3"; md_match := completedMatch "Grupo A" "B" "C" 3 0 |} ].

(** * Properties *)

(** ** The stable sort *)

Section sortBy_facts.
Context {A : Type} (cmp : A → A → Z).

Lemma sortInsert_perm x l : sortInsert cmp x l ≡ₚ x :: l.
Proof.
  induction l as [|y l IH]; simpl; [done|].
  case_decide; [|done].
  rewrite IH. apply perm_swap.
Qed.

Lemma sortBy_perm l : sortBy cmp l ≡ₚ l.
Proof.
  induction l as [|x l IH]; simpl; [done|].
  by rewrite sortInsert_perm, IH.
Qed.



(** For a comparator that is a total preorder the result is sorted. *)
Context (le : A → A → Prop).
Context (cmp_le : ∀ x y, ¬ 0 < cmp x y → le x y).
Context (cmp_gt : ∀ x y, 0 < cmp x y → le y x).
Context (le_trans : ∀ x y z, le x y → le y z → le x z).


End sortBy_facts.





(** ** The fold of [handleRecalculateStandings] *)

Lemma creditHome_id m s : participantId (creditHome m s) = participantId s.
Proof. done. Qed.

Lemma creditAway_id m s : participantId (creditAway m s) = participantId s.
Proof. done. Qed.

Lemma setDiff_id s : participantId (setDiff s) = participantId s.
Proof. done. Qed.

Lemma tallyStep_id s m : participantId (tallyStep s m) = participantId s.
Proof. unfold tallyStep. by repeat case_decide. Qed.

Lemma foldl_tallyStep_id ms s :
  participantId (foldl tallyStep s ms) = participantId s.
Proof.
  revert s. induction ms as [|m ms IH]; intros s; simpl; [done|].
  by rewrite IH, tallyStep_id.
Qed.

Lemma tally_id ms pid : participantId (tally ms pid) = pid.
Proof. unfold tally. by rewrite foldl_tallyStep_id. Qed.

(** What a mutation through [find] does to the element at each index: only
    the first element with the wanted id changes. *)
Lemma withRef_findRef_lookup (p : string) (f : Row → Row) (st : list Row) i :
  withRef (findRef (λ s, participantId s = p) st) f st !! i
  = (λ s, if decide (participantId s = p
                     ∧ p ∉ take i (participantId <$> st))
          then f s else s) <$> st !! i.
Proof.
  revert i. induction st as [|x st IH]; intros i; [done|].
  unfold findRef in *. simpl.
  destruct (decide (participantId x = p)) as [Hx|Hx]; simpl.
  - destruct i as [|i]; simpl.
    + rewrite decide_True; [done|]. split; [done|]. apply not_elem_of_nil.
    + destruct (st !! i) as [s|]; simpl; [|done].
      rewrite decide_False; [done|]. intros [_ []]. rewrite Hx. apply list_elem_of_here.
  - destruct (list_find _ st) as [[j y]|] eqn:Hfind; simpl in *;
      (destruct i as [|i]; simpl;
       [ rewrite decide_False; [done|]; by intros [? _]
       | etrans; [apply IH|];
         destruct (st !! i) as [s|]; simpl; [|done];
         f_equal; apply decide_ext; rewrite not_elem_of_cons; intuition congruence ]).
Qed.

Lemma findRef_ids (p : string) (st st' : list Row) :
  participantId <$> st = participantId <$> st' →
  findRef (λ s, participantId s = p) st = findRef (λ s, participantId s = p) st'.
Proof.
  intros Hids. unfold findRef.
  pose proof (list_find_fmap participantId (λ q, q = p) st) as H1.
  pose proof (list_find_fmap participantId (λ q, q = p) st') as H2.
  rewrite Hids in H1. rewrite H2 in H1. clear H2.
  unfold compose in H1.
  destruct (list_find _ st) as [[i x]|], (list_find _ st') as [[j y]|];
    simpl in *; congruence.
Qed.

Lemma withRef_ids (ref : option nat) (f : Row → Row) (st : list Row) :
  (∀ s, participantId (f s) = participantId s) →
  participantId <$> withRef ref f st = participantId <$> st.
Proof.
  intros Hf. destruct ref as [i|]; simpl; [|done].
  apply list_eq; intros j. rewrite !list_lookup_fmap.
  destruct (decide (i = j)) as [->|Hij].
  - rewrite list_lookup_alter_eq. destruct (st !! j); simpl; [|done].
    by rewrite Hf.
  - by rewrite list_lookup_alter_ne.
Qed.

Lemma applyMatch_ids st m :
  participantId <$> applyMatch st m = participantId <$> st.
Proof.
  unfold applyMatch.
  rewrite withRef_ids by apply creditAway_id.
  by rewrite withRef_ids by apply creditHome_id.
Qed.

Lemma foldl_applyMatch_ids ms st :
  participantId <$> foldl applyMatch st ms = participantId <$> st.
Proof.
  revert st. induction ms as [|m ms IH]; intros st; simpl; [done|].
  by rewrite IH, applyMatch_ids.
Qed.

Lemma foldedStandings_ids group ms gn :
  participantId <$> foldedStandings group ms gn = g_participantIds group.
Proof.
  unfold foldedStandings. rewrite foldl_applyMatch_ids.
  rewrite <- list_fmap_compose. apply list_fmap_id.
Qed.

Lemma tallied_ids ids ms : participantId <$> tallied ids ms = ids.
Proof.
  unfold tallied. rewrite fmap_imap. apply list_eq; intros i.
  rewrite list_lookup_imap. destruct (ids !! i) as [pid|]; simpl; [|done].
  case_decide; [done|]. by rewrite tally_id.
Qed.

Lemma tallied_nil ids : tallied ids [] = newRow <$> ids.
Proof.
  unfold tallied. apply list_eq; intros i.
  rewrite list_lookup_imap, list_lookup_fmap.
  destruct (ids !! i); simpl; [|done]. by case_decide.
Qed.

Lemma applyMatch_tallied ids ms m :
  applyMatch (tallied ids ms) m = tallied ids (ms ++ [m]).
Proof.
  apply list_eq; intros i. unfold applyMatch.
  rewrite (findRef_ids (m_awayParticipantId m) (tallied ids ms)
             (withRef (findRef (λ s, participantId s = m_homeParticipantId m)
                               (tallied ids ms)) (creditHome m) (tallied ids ms)))
    by (symmetry; apply withRef_ids, creditHome_id).
  rewrite withRef_findRef_lookup.
  rewrite withRef_ids by apply creditHome_id.
  rewrite withRef_findRef_lookup, tallied_ids.
  unfold tallied. rewrite !list_lookup_imap.
  destruct (ids !! i) as [pid|] eqn:Hi; simpl; [|done]. f_equal.
  destruct (decide (pid ∈ take i ids)) as [Hin|Hin].
  - repeat case_decide; simpl in *; try done; exfalso; intuition congruence.
  - replace (tally (ms ++ [m]) pid) with (tallyStep (tally ms pid) m)
      by (unfold tally; by rewrite foldl_snoc).
    unfold tallyStep.
    pose proof (tally_id ms pid) as Hr. revert Hr.
    generalize (tally ms pid). intros r Hr.
    repeat case_decide; simpl in *; try done; exfalso; subst pid;
      destruct_and?; try congruence;
      match goal with H : ¬ (_ ∧ _) |- _ => apply H; split; congruence end.
Qed.

Lemma foldl_applyMatch_tallied ids ms2 ms1 :
  foldl applyMatch (tallied ids ms1) ms2 = tallied ids (ms1 ++ ms2).
Proof.
  revert ms1. induction ms2 as [|m ms2 IH]; intros ms1; simpl.
  - by rewrite app_nil_r.
  - rewrite applyMatch_tallied, IH. by rewrite <- app_assoc.
Qed.

Lemma foldedStandings_tallied group ms gn :
  foldedStandings group ms gn
  = tallied (g_participantIds group) (groupMatches ms gn).
Proof.
  unfold foldedStandings. rewrite <- tallied_nil.
  by rewrite foldl_applyMatch_tallied.
Qed.

Lemma tallied_NoDup ids ms : NoDup ids → tallied ids ms = tally ms <$> ids.
Proof.
  intros Hnd. unfold tallied. apply list_eq; intros i.
  rewrite list_lookup_imap, list_lookup_fmap.
  destruct (ids !! i) as [pid|] eqn:Hi; simpl; [|done].
  rewrite decide_False; [done|].
  intros Hin. apply list_elem_of_lookup in Hin as [j Hj].
  assert (j < i)%nat by (apply lookup_lt_Some in Hj; rewrite length_take in Hj; lia).
  rewrite lookup_take_lt in Hj by done.
  pose proof (NoDup_lookup _ _ _ _ Hnd Hi Hj). lia.
Qed.

Lemma standingsTable_perm group ms gn :
  standingsTable group ms gn ≡ₚ setDiff <$> foldedStandings group ms gn.
Proof. apply sortBy_perm. Qed.

Lemma findRef_None (p : string) (st : list Row) :
  p ∉ participantId <$> st → findRef (λ s, participantId s = p) st = None.
Proof.
  intros Hp. unfold findRef.
  assert (list_find (λ s, participantId s = p) st = None) as ->; [|done].
  apply list_find_None, Forall_forall. intros s Hs <-.
  apply Hp. by apply list_elem_of_fmap_2.
Qed.

Lemma tallyStep_balanced s m : rowBalanced s → rowBalanced (tallyStep s m).
Proof.
  unfold rowBalanced, tallyStep, creditHome, creditAway.
  repeat case_decide; simpl; repeat case_bool_decide; lia.
Qed.

Lemma tally_balanced ms pid : rowBalanced (tally ms pid).
Proof.
  unfold tally. assert (rowBalanced (newRow pid)) as H by (split; done).
  revert H. generalize (newRow pid).
  induction ms as [|m ms IH]; intros s Hs; simpl; [done|].
  by apply IH, tallyStep_balanced.
Qed.


(** ** Sums, and the range in which the sums of sets are exact *)

Lemma total_cons {A} (f : A → Z) x l : total f (x :: l) = f x + total f l.
Proof. done. Qed.

Lemma total_perm {A} (f : A → Z) l1 l2 : l1 ≡ₚ l2 → total f l1 = total f l2.
Proof.
  induction 1 as [|x l1 l2 _ IH|x y l|l1 l2 l3 _ IH1 _ IH2];
    rewrite ?total_cons; lia.
Qed.

Lemma total_setsPlayed_nonneg ms : 0 ≤ total setsPlayed ms.
Proof.
  induction ms as [|m ms IH]; [done|].
  rewrite total_cons. unfold setsPlayed at 1. lia.
Qed.

Lemma roundDouble_exact z : Z.abs z ≤ 2 ^ 53 → roundDouble z = z.
Proof. intros Hz. unfold roundDouble. by rewrite decide_True. Qed.

(** Above [2^53] only every second integer is a double, above [2^54] every
    fourth; halfway the even significand wins. *)
Example roundDouble_values :
  roundDouble <$> [ 2 ^ 53 + 1; 2 ^ 53 + 2; 2 ^ 53 + 3; - (2 ^ 53 + 1);
                    2 ^ 54 + 2; 2 ^ 54 + 5; 2 ^ 54 + 6 ]
  = [ 2 ^ 53; 2 ^ 53 + 2; 2 ^ 53 + 4; - 2 ^ 53;
      2 ^ 54; 2 ^ 54 + 4; 2 ^ 54 + 8 ].
Proof. vm_compute. reflexivity. Qed.

Lemma toNumber_scoreOf v : toNumber v = scoreOf v.
Proof. by destruct v. Qed.

Lemma groupMatches_completedOf ms gn : groupMatches ms gn = completedOf gn ms.
Proof. reflexivity. Qed.

Lemma creditHome_spec m s :
  Z.abs (setsFor s + scoreOf (m_homeSets m)) ≤ 2 ^ 53 →
  Z.abs (setsAgainst s + scoreOf (m_awaySets m)) ≤ 2 ^ 53 →
  creditHome m s
  = specCredit (scoreOf (m_homeSets m)) (scoreOf (m_awaySets m)) s.
Proof.
  intros Hfor Hagainst. unfold creditHome, specCredit, addNumber.
  rewrite !toNumber_scoreOf, !roundDouble_exact by done.
  destruct (decide (scoreOf (m_homeSets m) > scoreOf (m_awaySets m)));
    [by rewrite bool_decide_true|by rewrite bool_decide_false].
Qed.

Lemma creditAway_spec m s :
  Z.abs (setsFor s + scoreOf (m_awaySets m)) ≤ 2 ^ 53 →
  Z.abs (setsAgainst s + scoreOf (m_homeSets m)) ≤ 2 ^ 53 →
  creditAway m s
  = specCredit (scoreOf (m_awaySets m)) (scoreOf (m_homeSets m)) s.
Proof.
  intros Hfor Hagainst. unfold creditAway, specCredit, addNumber.
  rewrite !toNumber_scoreOf, !roundDouble_exact by done.
  destruct (decide (scoreOf (m_awaySets m) > scoreOf (m_homeSets m)));
    [by rewrite bool_decide_true|by rewrite bool_decide_false].
Qed.

(** Inside the range the step of the handler on a row is the step of the
    specification, and the row stays inside the range grown by the sets of
    the fixture. *)
Lemma tallyStep_spec W s m :
  withinRange W s → W + setsPlayed m ≤ 2 ^ 53 →
  tallyStep s m = specStep s m
  ∧ withinRange (W + setsPlayed m) (specStep s m).
Proof.
  unfold withinRange, setsPlayed, tallyStep, specStep.
  intros (Hfor & Hagainst & Hdiff) HW.
  destruct (decide (m_homeParticipantId m = participantId s)) as [Hh|Hh].
  - rewrite creditHome_spec by lia.
    destruct (decide (m_awayParticipantId m = participantId s)) as [Ha|Ha].
    + rewrite creditAway_spec by (simpl; lia). simpl. split; [done|lia].
    + simpl. split; [done|lia].
  - destruct (decide (m_awayParticipantId m = participantId s)) as [Ha|Ha].
    + rewrite creditAway_spec by lia. simpl. split; [done|lia].
    + split; [done|lia].
Qed.

Lemma foldl_tallyStep_spec ms W s :
  withinRange W s → W + total setsPlayed ms ≤ 2 ^ 53 →
  foldl tallyStep s ms = foldl specStep s ms
  ∧ withinRange (W + total setsPlayed ms) (foldl specStep s ms).
Proof.
  revert W s. induction ms as [|m ms IH]; intros W s Hs HW.
  - simpl. split; [done|]. unfold total. simpl. by rewrite Z.add_0_r.
  - rewrite total_cons in *. pose proof (total_setsPlayed_nonneg ms).
    destruct (tallyStep_spec W s m Hs) as [Hstep Hs']; [lia|].
    cbn [foldl]. rewrite Hstep.
    destruct (IH (W + setsPlayed m) (specStep s m) Hs') as [Hfold Hrange];
      [lia|].
    split; [done|]. by rewrite Z.add_assoc.
Qed.

Lemma tally_spec ms pid :
  safeScores ms →
  tally ms pid = foldl specStep (newRow pid) ms
  ∧ withinRange (total setsPlayed ms) (foldl specStep (newRow pid) ms).
Proof.
  intros Hsafe. unfold tally.
  apply (foldl_tallyStep_spec ms 0 (newRow pid)); [|exact Hsafe].
  unfold withinRange. simpl. lia.
Qed.

Lemma setDiff_spec W s : withinRange W s → W ≤ 2 ^ 53 → setDiff s = specDifference s.
Proof.
  intros (_ & _ & Hdiff) HW. unfold setDiff, specDifference, subNumber.
  by rewrite roundDouble_exact by lia.
Qed.

(** The rows after the fold, inside the range. *)
Lemma tallied_spec ids ms :
  safeScores ms →
  tallied ids ms
  = imap (λ i pid, if decide (pid ∈ take i ids) then newRow pid
                   else foldl specStep (newRow pid) ms) ids
  ∧ Forall (withinRange (total setsPlayed ms)) (tallied ids ms).
Proof.
  intros Hsafe. split.
  - unfold tallied. apply imap_ext. intros i pid _. simpl.
    case_decide; [done|]. by destruct (tally_spec ms pid Hsafe).
  - apply Forall_lookup_2. intros i s Hs. unfold tallied in Hs.
    apply list_lookup_imap_Some in Hs as (pid & _ & ->).
    case_decide.
    + pose proof (total_setsPlayed_nonneg ms).
      unfold withinRange. simpl. lia.
    + destruct (tally_spec ms pid Hsafe) as [-> Hrange]. exact Hrange.
Qed.

Lemma setDiff_folded_spec group ms gn :
  safeScores (groupMatches ms gn) →
  setDiff <$> foldedStandings group ms gn
  = specDifference <$> foldedStandings group ms gn.
Proof.
  intros Hsafe. rewrite foldedStandings_tallied.
  destruct (tallied_spec (g_participantIds group) _ Hsafe) as [_ Hrange].
  apply Forall_fmap_ext_1. eapply Forall_impl; [exact Hrange|].
  intros s Hs. by apply (setDiff_spec _ _ Hs).
Qed.

(** ** Claims on the standings *)

(** C1: while the sets of the counted fixtures add up to no more than
    [2^53] (beyond that the sums of the handler are rounded), the
    recomputation is the fold of the specification: it counts the fixtures
    of [updatedMatches] whose group name is [groupName] and whose status is
    completed, each once and in their order; the row found for a
    participant starts at zero and receives, for each counted fixture, the
    home update when the participant is the home side and the away update
    when the participant is the away side (a participant listed twice is
    found at the first place only); an update adds one game played, the
    own sets to [setsFor], the opponent's sets to [setsAgainst], and a win
    with two points when the own sets are strictly more, otherwise (also on
    equal sets) a loss with one point; and in the stored table every row
    has [setDifference = setsFor - setsAgainst]. *)
Theorem standings_fold_tallies (group : Group) (updatedMatches : list Match)
    (groupName : string) :
  safeScores (completedOf groupName updatedMatches) →
  groupMatches updatedMatches groupName = completedOf groupName updatedMatches
  ∧ foldedStandings group updatedMatches groupName
    = imap (λ i pid,
              if decide (pid ∈ take i (g_participantIds group)) then newRow pid
              else foldl specStep (newRow pid)
                         (completedOf groupName updatedMatches))
           (g_participantIds group)
  ∧ (NoDup (g_participantIds group) →
     foldedStandings group updatedMatches groupName
     = (λ pid, foldl specStep (newRow pid)
                     (completedOf groupName updatedMatches))
         <$> g_participantIds group
     ∧ standingsTable group updatedMatches groupName
       ≡ₚ specRow (completedOf groupName updatedMatches)
            <$> g_participantIds group)
  ∧ (∀ m s h a, m_homeSets m = Some h → m_awaySets m = Some a →
       Z.abs (setsFor s + h) ≤ 2 ^ 53 → Z.abs (setsAgainst s + a) ≤ 2 ^ 53 →
       creditHome m s = specCredit h a s)
  ∧ (∀ m s h a, m_homeSets m = Some h → m_awaySets m = Some a →
       Z.abs (setsFor s + a) ≤ 2 ^ 53 → Z.abs (setsAgainst s + h) ≤ 2 ^ 53 →
       creditAway m s = specCredit a h s)
  ∧ (∀ m s n, m_homeSets m = Some n → m_awaySets m = Some n →
       wins (creditHome m s) = wins s ∧ losses (creditHome m s) = losses s + 1
       ∧ points (creditHome m s) = points s + 1
       ∧ wins (creditAway m s) = wins s ∧ losses (creditAway m s) = losses s + 1
       ∧ points (creditAway m s) = points s + 1)
  ∧ standingsTable group updatedMatches groupName
    ≡ₚ specDifference <$> foldedStandings group updatedMatches groupName
  ∧ Forall (λ s, setDifference s = setsFor s - setsAgainst s)
           (standingsTable group updatedMatches groupName).
Proof.
  intros Hsafe. rewrite <- groupMatches_completedOf in *.
  destruct (tallied_spec (g_participantIds group) _ Hsafe) as [Hrows _].
  assert (standingsTable group updatedMatches groupName
          ≡ₚ specDifference <$> foldedStandings group updatedMatches groupName)
    as Htable
    by (rewrite standingsTable_perm; by rewrite setDiff_folded_spec).
  split_and!.
  - done.
  - by rewrite foldedStandings_tallied.
  - intros Hnd.
    assert (foldedStandings group updatedMatches groupName
            = (λ pid, foldl specStep (newRow pid)
                            (groupMatches updatedMatches groupName))
                <$> g_participantIds group) as Hfold.
    { rewrite foldedStandings_tallied, tallied_NoDup by done.
      apply list_fmap_ext. intros i pid _.
      by destruct (tally_spec _ pid Hsafe). }
    split; [exact Hfold|].
    rewrite Htable, Hfold, <- list_fmap_compose. done.
  - intros m s h a Hh Ha Hfor Hagainst.
    rewrite creditHome_spec; rewrite ?Hh, ?Ha; done.
  - intros m s h a Hh Ha Hfor Hagainst.
    rewrite creditAway_spec; rewrite ?Hh, ?Ha; done.
  - intros m s n Hh Ha. unfold creditHome, creditAway. simpl.
    rewrite Hh, Ha. simpl. rewrite bool_decide_false by lia. done.
  - exact Htable.
  - rewrite Htable. apply Forall_fmap, Forall_forall. by intros s _.
Qed.

(** C1, as stated, fails when the sets add up to more than [2^53]: after
    A's [2^53] sets against B and one set against C, the handler's sum of
    A's sets is still [2^53], one less than the sum of the integers. *)
Lemma standings_sum_rounded :
  ¬ (foldedStandings scenarioGroup largeScoreMatches "Grupo A"
     = (λ pid, foldl specStep (newRow pid)
                     (completedOf "Grupo A" largeScoreMatches))
         <$> g_participantIds scenarioGroup).
Proof.
  intros Heq. apply (f_equal (fmap setsFor)) in Heq.
  vm_compute in Heq. discriminate Heq.
Qed.

Lemma standings_fold_tallies_witness :
  safeScores (completedOf "Grupo A" scenarioMatches)
  ∧ standingsTable scenarioGroup scenarioMatches "Grupo A"
    ≡ₚ specRow (completedOf "Grupo A" scenarioMatches) <$> ["A"; "B"; "C"].
Proof.
  assert (safeScores (completedOf "Grupo A" scenarioMatches)) as Hsafe
    by (apply (bool_decide_unpack _); vm_compute; exact I).
  assert (NoDup (g_participantIds scenarioGroup)) as Hnd
    by (apply (bool_decide_unpack _); vm_compute; exact I).
  split; [exact Hsafe|].
  destruct (standings_fold_tallies scenarioGroup scenarioMatches "Grupo A"
              Hsafe) as (_ & _ & Hrows & _).
  exact (proj2 (Hrows Hnd)).
Defined.


(** C9: every row of the stored table has [played = wins + losses] and
    [points = 2 * wins + losses], whatever the scores of the fixtures, equal
    set scores included. *)
Theorem standings_rows_balanced (group : Group) (updatedMatches : list Match)
    (groupName : string) :
  Forall rowBalanced (standingsTable group updatedMatches groupName).
Proof.
  rewrite standingsTable_perm, foldedStandings_tallied.
  apply Forall_fmap, Forall_lookup_2. intros i s Hs.
  unfold tallied in Hs. apply list_lookup_imap_Some in Hs as (pid & _ & ->).
  unfold compose. case_decide.
  - by split.
  - destruct (tally_balanced (groupMatches updatedMatches groupName) pid).
    by split.
Qed.

Lemma findRef_first (p : string) (st : list Row) i r :
  st !! i = Some r → participantId r = p →
  (∀ j r', (j < i)%nat → st !! j = Some r' → participantId r' ≠ p) →
  findRef (λ s, participantId s = p) st = Some i.
Proof.
  intros Hi Hr Hfirst. unfold findRef.
  assert (list_find (λ s, participantId s = p) st = Some (i, r)) as ->; [|done].
  apply list_find_Some. split_and!; [done|done|].
  intros j y Hj Hlt. by apply (Hfirst j).
Qed.

Lemma alter_insert_lookup {A} (f : A → A) (l : list A) i x :
  l !! i = Some x → alter f i l = <[i := f x]> l.
Proof.
  intros Hi. apply list_eq. intros j.
  destruct (decide (i = j)) as [<-|Hne].
  - rewrite list_lookup_alter_eq, list_lookup_insert_eq
      by (by eapply lookup_lt_Some).
    by rewrite Hi.
  - by rewrite list_lookup_alter_ne, list_lookup_insert_ne.
Qed.

(** C10: the recomputation never fails and never adds or drops a row: the
    rows stand for the entries of [group.participantIds] throughout the
    fold, and the stored table holds the same participants.  A fixture
    whose home id has no row changes exactly one row, the first one of the
    away id, which receives the away update, and leaves every other row as
    it is; likewise with the sides exchanged; with neither id in the table
    the fixture changes nothing.  The update received is the one of the
    specification: it counts one more game and, while the sums of sets stay
    within [2^53], it is the update of C1. *)
Theorem unknown_side_skipped :
  (∀ group updatedMatches groupName,
     participantId <$> foldedStandings group updatedMatches groupName
     = g_participantIds group)
  ∧ (∀ group updatedMatches groupName,
     participantId <$> standingsTable group updatedMatches groupName
     ≡ₚ g_participantIds group)
  ∧ (∀ st m, participantId <$> applyMatch st m = participantId <$> st)
  ∧ (∀ st m i r,
       m_homeParticipantId m ∉ participantId <$> st →
       st !! i = Some r → participantId r = m_awayParticipantId m →
       (∀ j r', (j < i)%nat → st !! j = Some r' →
                participantId r' ≠ m_awayParticipantId m) →
       applyMatch st m = <[i := creditAway m r]> st)
  ∧ (∀ st m i r,
       m_awayParticipantId m ∉ participantId <$> st →
       st !! i = Some r → participantId r = m_homeParticipantId m →
       (∀ j r', (j < i)%nat → st !! j = Some r' →
                participantId r' ≠ m_homeParticipantId m) →
       applyMatch st m = <[i := creditHome m r]> st)
  ∧ (∀ st m, m_homeParticipantId m ∉ participantId <$> st →
       m_awayParticipantId m ∉ participantId <$> st →
       applyMatch st m = st)
  ∧ (∀ m r, participantId (creditHome m r) = participantId r
            ∧ played (creditHome m r) = played r + 1
            ∧ participantId (creditAway m r) = participantId r
            ∧ played (creditAway m r) = played r + 1)
  ∧ (∀ m r,
       Z.abs (setsFor r + scoreOf (m_homeSets m)) ≤ 2 ^ 53 →
       Z.abs (setsAgainst r + scoreOf (m_awaySets m)) ≤ 2 ^ 53 →
       creditHome m r
       = specCredit (scoreOf (m_homeSets m)) (scoreOf (m_awaySets m)) r)
  ∧ (∀ m r,
       Z.abs (setsFor r + scoreOf (m_awaySets m)) ≤ 2 ^ 53 →
       Z.abs (setsAgainst r + scoreOf (m_homeSets m)) ≤ 2 ^ 53 →
       creditAway m r
       = specCredit (scoreOf (m_awaySets m)) (scoreOf (m_homeSets m)) r).
Proof.
  split_and!.
  - apply foldedStandings_ids.
  - intros group ms gn. rewrite standingsTable_perm.
    rewrite <- list_fmap_compose.
    assert (participantId ∘ setDiff <$> foldedStandings group ms gn
            = participantId <$> foldedStandings group ms gn) as ->
      by by apply list_fmap_ext.
    by rewrite foldedStandings_ids.
  - apply applyMatch_ids.
  - intros st m i r Hh Hi Hr Hfirst. unfold applyMatch.
    rewrite (findRef_None _ _ Hh), (findRef_first _ _ i r) by done.
    simpl. by apply alter_insert_lookup.
  - intros st m i r Ha Hi Hr Hfirst. unfold applyMatch.
    rewrite (findRef_None _ _ Ha), (findRef_first _ _ i r) by done.
    simpl. by apply alter_insert_lookup.
  - intros st m Hh Ha. unfold applyMatch.
    by rewrite (findRef_None _ _ Hh), (findRef_None _ _ Ha).
  - done.
  - apply creditHome_spec.
  - apply creditAway_spec.
Qed.

(** ** The upsert of [handleRecalculateStandings] *)

Lemma upsert_filter_other st gn table n :
  n ≠ gn →
  filter (λ s, s_groupName s = n) (upsertStandings st gn table)
  = filter (λ s, s_groupName s = n) st.
Proof.
  intros Hn. unfold upsertStandings.
  rewrite filter_app, filter_cons, decide_False by (simpl; congruence).
  rewrite filter_nil, app_nil_r.
  rewrite list_filter_filter. apply list_filter_iff.
  intros s. split; [tauto|]. intros ->. done.
Qed.

Lemma upsert_filter_same st gn table :
  filter (λ s, s_groupName s = gn) (upsertStandings st gn table)
  = [ {| s_groupName := gn; s_table := table |} ].
Proof.
  unfold upsertStandings.
  rewrite filter_app, filter_cons, decide_True by done.
  rewrite filter_nil, list_filter_filter.
  assert (filter (λ s, s_groupName s = gn ∧ s_groupName s ≠ gn) st = []) as ->;
    [|done].
  induction st as [|s st IH]; [done|].
  rewrite filter_cons, decide_False by tauto. done.
Qed.

Lemma upsert_NoDup st gn table :
  NoDup (s_groupName <$> st) →
  NoDup (s_groupName <$> upsertStandings st gn table).
Proof.
  intros Hnd. unfold upsertStandings. rewrite fmap_app. simpl.
  apply NoDup_app. split_and!.
  - apply (sublist_NoDup _ _ Hnd).
    apply fmap_sublist, sublist_filter.
  - intros n Hn Hgn. apply list_elem_of_singleton in Hgn as ->.
    apply list_elem_of_fmap in Hn as (s & Hs & Hin).
    apply list_elem_of_filter in Hin as [Hne _]. done.
  - apply NoDup_singleton.
Qed.

(** C8: when a group carries the name, the collection stored by the
    recomputation holds exactly one entry under that name, the newly
    computed table; under every other name it holds the entries that were
    there before, unchanged and in the same order; hence a collection with
    at most one entry per name keeps that property.  Nothing but the
    standings is written. *)
Theorem standings_upsert_by_name (champ : Championship)
    (updatedMatches : list Match) (groupName : string) (i : nat) (group : Group) :
  list_find (λ g, g_name g = groupName) (c_groups champ) = Some (i, group) →
  filter (λ s, s_groupName s = groupName)
         (c_standings (handleRecalculateStandings champ updatedMatches groupName))
  = [ {| s_groupName := groupName;
         s_table := standingsTable group updatedMatches groupName |} ]
  ∧ (∀ n, n ≠ groupName →
       filter (λ s, s_groupName s = n)
              (c_standings (handleRecalculateStandings champ updatedMatches groupName))
       = filter (λ s, s_groupName s = n) (c_standings champ))
  ∧ (∀ s, s_groupName s ≠ groupName →
       s ∈ c_standings (handleRecalculateStandings champ updatedMatches groupName)
       ↔ s ∈ c_standings champ)
  ∧ (NoDup (s_groupName <$> c_standings champ) →
     NoDup (s_groupName <$>
            c_standings (handleRecalculateStandings champ updatedMatches groupName)))
  ∧ c_groups (handleRecalculateStandings champ updatedMatches groupName)
    = c_groups champ
  ∧ c_groupStage (handleRecalculateStandings champ updatedMatches groupName)
    = c_groupStage champ
  ∧ c_participantIds (handleRecalculateStandings champ updatedMatches groupName)
    = c_participantIds champ.
Proof.
  intros Hfind. unfold handleRecalculateStandings. rewrite Hfind. simpl.
  split_and!; try done.
  - apply upsert_filter_same.
  - intros n Hn. by apply upsert_filter_other.
  - intros s Hs. unfold upsertStandings.
    rewrite elem_of_app, list_elem_of_filter, list_elem_of_singleton.
    split; [|tauto]. intros [[_ ?]| ->]; [done|]. by destruct Hs.
  - apply upsert_NoDup.
Qed.

(** *** The scenario of the specification

    A beats B 3-1, C beats A 3-2, B beats C 3-0.  B concedes three sets to
    A and none to C; A and B are level on points and on set difference and
    are ranked by sets won. *)

Example scenario_table :
  standingsTable scenarioGroup scenarioMatches "Grupo A"
  = [ mkRow "A" 2 1 1 5 4 1 3; mkRow "B" 2 1 1 4 3 1 3;
      mkRow "C" 2 1 1 3 5 (-2) 3 ].
Proof. vm_compute. reflexivity. Qed.

(** A fixture with equal set scores gives each side a loss and one point. *)
Example tied_fixture_table :
  standingsTable scenarioGroup [completedMatch "Grupo A" "B" "C" 2 2] "Grupo A"
  = [ mkRow "B" 1 0 1 2 2 0 1; mkRow "C" 1 0 1 2 2 0 1;
      mkRow "A" 0 0 0 0 0 0 0 ].
Proof. vm_compute. reflexivity. Qed.

(** A fixture against an id outside the group credits the known side only. *)
Example unknown_home_table :
  standingsTable scenarioGroup [completedMatch "Grupo A" "Z" "C" 0 3] "Grupo A"
  = [ mkRow "C" 1 1 0 3 0 3 2; mkRow "A" 0 0 0 0 0 0 0;
      mkRow "B" 0 0 0 0 0 0 0 ].
Proof. vm_compute. reflexivity. Qed.

Lemma standings_upsert_by_name_witness :
  filter (λ s, s_groupName s = "Grupo A")
         (c_standings (handleRecalculateStandings scenarioChampionship
                         scenarioMatches "Grupo A"))
  = [ {| s_groupName := "Grupo A";
         s_table := standingsTable scenarioGroup scenarioMatches "Grupo A" |} ].
Proof.
  exact (proj1 (standings_upsert_by_name scenarioChampionship scenarioMatches
                  "Grupo A" 0%nat scenarioGroup eq_refl)).
Defined.

(** ** The schedule of [handleGenerateMatches] *)

Section loops.
Context {B : Type}.

(** The inner loop, read as a traversal of the ids after position [i]. *)
Lemma inner_loop (G : string → list B) (pre l : list string) :
  (j ← seq (length pre) (length l); G ((pre ++ l)%list !!! j)) = l ≫= G.
Proof.
  revert pre. induction l as [|x l IH]; intros pre; [done|].
  cbn [length seq]. rewrite !bind_cons. f_equal.
  - by rewrite list_lookup_total_middle.
  - specialize (IH (pre ++ [x])%list).
    rewrite <- app_assoc, length_app in IH. simpl in IH.
    by rewrite Nat.add_1_r in IH.
Qed.

(** The two nested loops, read as a traversal of the pairs. *)
Lemma nested_loops (F : string → string → list B) (pre l : list string) :
  (i ← seq (length pre) (length l);
   j ← seq (S i) (length (pre ++ l)%list - S i);
   F ((pre ++ l)%list !!! i) ((pre ++ l)%list !!! j))
  = orderedPairs l ≫= (λ p, F p.1 p.2).
Proof.
  revert pre. induction l as [|x l IH]; intros pre; [done|].
  cbn [length seq orderedPairs]. rewrite bind_cons, bind_app. f_equal.
  - rewrite list_lookup_total_middle by done.
    rewrite list_fmap_bind.
    pose proof (inner_loop (F x) (pre ++ [x])%list l) as Hin.
    rewrite <- app_assoc, length_app in Hin. simpl in Hin.
    rewrite Nat.add_1_r in Hin.
    replace (length (pre ++ x :: l) - S (length pre))%nat with (length l)
      by (rewrite length_app; simpl; lia).
    exact Hin.
  - specialize (IH (pre ++ [x])%list).
    assert (length (pre ++ [x]) = S (length pre)) as Hlen
      by (rewrite length_app; simpl; lia).
    rewrite Hlen, <- app_assoc in IH. exact IH.
Qed.
End loops.

Lemma groupFixtures_pairs pm format group :
  groupFixtures pm format group
  = orderedPairs (g_participantIds group)
      ≫= (λ p, pairFixtures pm format (g_name group) p.1 p.2).
Proof.
  unfold groupFixtures.
  apply (nested_loops (pairFixtures pm format (g_name group)) []).
Qed.

Lemma groupFixtures_sides pm format group :
  sides <$> groupFixtures pm format group
  = schedule format (g_participantIds group).
Proof.
  rewrite groupFixtures_pairs. unfold schedule.
  induction (orderedPairs (g_participantIds group)) as [|[h a] l IH]; [done|].
  rewrite !bind_cons, fmap_app, IH. f_equal.
  unfold pairFixtures. by case_decide.
Qed.

Lemma elem_of_orderedPairs_cons a b x l :
  (a, b) ∈ orderedPairs (x :: l) ↔ (a = x ∧ b ∈ l) ∨ (a, b) ∈ orderedPairs l.
Proof.
  simpl. rewrite elem_of_app, list_elem_of_fmap. split.
  - intros [(c & [= -> ->] & Hc)|?]; auto.
  - intros [[-> Hb]|?]; eauto.
Qed.

Lemma orderedPairs_elem a b l : (a, b) ∈ orderedPairs l → a ∈ l ∧ b ∈ l.
Proof.
  induction l as [|x l IH]; [by intros ?%elem_of_nil|].
  rewrite elem_of_orderedPairs_cons, !elem_of_cons.
  intros [[-> Hb]|[Ha Hb]%IH]; auto.
Qed.

Lemma elem_of_orderedPairs a b l :
  (a, b) ∈ orderedPairs l
  ↔ ∃ i j, (i < j)%nat ∧ l !! i = Some a ∧ l !! j = Some b.
Proof.
  induction l as [|x l IH].
  - split; [by intros ?%elem_of_nil|]. by intros (i & j & _ & ? & _).
  - rewrite elem_of_orderedPairs_cons, IH. split.
    + intros [[-> Hb]|(i & j & Hij & Hi & Hj)].
      * apply list_elem_of_lookup in Hb as [j Hj].
        exists 0%nat, (S j). split_and!; [lia|done|done].
      * exists (S i), (S j). split_and!; [lia|done|done].
    + intros (i & j & Hij & Hi & Hj).
      destruct j as [|j]; [lia|]. destruct i as [|i]; simpl in *.
      * left. split; [congruence|]. apply list_elem_of_lookup. eauto.
      * right. exists i, j. split_and!; [lia|done|done].
Qed.

Lemma orderedPairs_NoDup l : NoDup l → NoDup (orderedPairs l).
Proof.
  induction 1 as [|x l Hx Hl IH]; simpl; [constructor|].
  apply NoDup_app. split_and!; [|
    intros [a b] (c & [= -> ->] & _)%list_elem_of_fmap [? _]%orderedPairs_elem |];
    try done.
  apply NoDup_fmap_2; [|done]. by intros ?? [=].
Qed.

Lemma orderedPairs_irrefl a l : NoDup l → (a, a) ∉ orderedPairs l.
Proof.
  intros Hnd (i & j & Hij & Hi & Hj)%elem_of_orderedPairs.
  pose proof (NoDup_lookup _ _ _ _ Hnd Hi Hj). lia.
Qed.

Lemma orderedPairs_asym a b l :
  NoDup l → (a, b) ∈ orderedPairs l → (b, a) ∉ orderedPairs l.
Proof.
  intros Hnd (i & j & Hij & Hi & Hj)%elem_of_orderedPairs
             (i' & j' & Hij' & Hi' & Hj')%elem_of_orderedPairs.
  pose proof (NoDup_lookup _ _ _ _ Hnd Hi Hj').
  pose proof (NoDup_lookup _ _ _ _ Hnd Hj Hi'). lia.
Qed.

Lemma orderedPairs_total a b l :
  a ∈ l → b ∈ l → a ≠ b → (a, b) ∈ orderedPairs l ∨ (b, a) ∈ orderedPairs l.
Proof.
  intros [i Hi]%list_elem_of_lookup [j Hj]%list_elem_of_lookup Hab.
  rewrite !elem_of_orderedPairs.
  destruct (decide (i < j)%nat); [left; eauto|].
  right. exists j, i. split_and!; [|done|done].
  assert (i ≠ j) by congruence. lia.
Qed.

Lemma orderedPairs_length l :
  (2 * length (orderedPairs l) = length l * (length l - 1))%nat.
Proof.
  induction l as [|x l IH]; [done|].
  simpl. rewrite length_app, length_fmap. nia.
Qed.

Lemma filter_length_one {A} (P : A → Prop) `{∀ x, Decision (P x)} l x :
  NoDup l → x ∈ l → P x → (∀ y, y ∈ l → P y → y = x) →
  length (filter P l) = 1%nat.
Proof.
  intros Hnd Hx HP Huniq.
  apply list_elem_of_split in Hx as (l1 & l2 & ->).
  apply NoDup_app in Hnd as (_ & Hl1 & [Hl2 _]%NoDup_cons).
  assert (∀ k, (∀ y, y ∈ k → y ∈ l1 ++ x :: l2) → x ∉ k → filter P k = [])
    as Hnone.
  { intros k Hk Hxk. induction k as [|y k IH]; [done|].
    rewrite filter_cons. rewrite decide_False.
    - apply IH; [intros; apply Hk; by right|].
      intros ?; apply Hxk; by right.
    - intros Hy. apply Hxk. rewrite (Huniq y); [left|apply Hk; left|done]. }
  rewrite filter_app, filter_cons, decide_True by done.
  rewrite (Hnone l1), (Hnone l2); [done| | | |].
  - intros y Hy. rewrite elem_of_app, elem_of_cons. auto.
  - done.
  - intros y Hy. rewrite elem_of_app. auto.
  - intros Hin. apply (Hl1 x Hin). left.
Qed.

Lemma filter_fmap_length {A C} (f : A → C) (P : C → Prop)
    `{∀ x, Decision (P x)} (l : list A) :
  length (filter (λ x, P (f x)) l) = length (filter P (f <$> l)).
Proof.
  induction l as [|x l IH]; [done|].
  rewrite fmap_cons, !filter_cons. case_decide; simpl; by rewrite IH.
Qed.

Lemma schedule_single l : schedule "single" l = orderedPairs l.
Proof.
  unfold schedule.
  destruct (decide ("single" = "home_and_away")) as [?|_]; [done|].
  induction (orderedPairs l) as [|p k IH]; [done|].
  rewrite bind_cons, IH. done.
Qed.

Lemma elem_of_schedule_return a b l :
  (a, b) ∈ schedule "home_and_away" l
  ↔ (a, b) ∈ orderedPairs l ∨ (b, a) ∈ orderedPairs l.
Proof.
  unfold schedule.
  destruct (decide ("home_and_away" = "home_and_away")) as [_|?]; [|done].
  rewrite list_elem_of_bind. split.
  - intros ([c d] & Hin & Hp). simpl in Hin.
    rewrite !elem_of_cons in Hin.
    destruct Hin as [[= -> ->]|[[= -> ->]|?%elem_of_nil]]; auto. done.
  - intros [H|H]; eexists; (split; [|exact H]); simpl;
      rewrite !elem_of_cons; auto.
Qed.

Lemma schedule_return_NoDup l :
  NoDup l → NoDup (schedule "home_and_away" l).
Proof.
  intros Hnd. unfold schedule.
  destruct (decide ("home_and_away" = "home_and_away")) as [_|?]; [|done].
  apply NoDup_bind; [| |by apply orderedPairs_NoDup].
  - intros [a b] [c d] y H1 H2. simpl. rewrite !elem_of_cons.
    intros [->|[->|?%elem_of_nil]] [Hy|[Hy|?%elem_of_nil]]; try done.
    + injection Hy as -> ->. by destruct (orderedPairs_asym _ _ _ Hnd H1).
    + injection Hy as -> ->. by destruct (orderedPairs_asym _ _ _ Hnd H1).
    + by injection Hy as -> ->.
  - intros [a b] Hab. simpl. apply NoDup_cons. split; [|apply NoDup_singleton].
    rewrite list_elem_of_singleton. intros [= -> _].
    by destruct (orderedPairs_irrefl b l).
Qed.

Lemma schedule_length format l :
  length (schedule format l)
  = ((if decide (format = "home_and_away") then 2 else 1)
     * length (orderedPairs l))%nat.
Proof.
  unfold schedule.
  destruct (decide (format = "home_and_away")) as [_|_];
    (induction (orderedPairs l) as [|p k IH]; [done|]);
    rewrite bind_cons, length_app, IH; simpl; lia.
Qed.

Lemma groupFixtures_length pm format group :
  length (groupFixtures pm format group)
  = length (schedule format (g_participantIds group)).
Proof. by rewrite <- (groupFixtures_sides pm), length_fmap. Qed.

Lemma groupFixtures_pending pm format group :
  Forall (λ m, isPending m ∧ m_groupName m = g_name group
               ∧ m_stage m = "group")
         (groupFixtures pm format group).
Proof.
  rewrite groupFixtures_pairs. apply Forall_bind, Forall_forall.
  intros [h a] _. unfold compose, pairFixtures, isPending. simpl.
  case_decide; repeat constructor.
Qed.

Lemma elem_of_schedule format a b l :
  (a, b) ∈ schedule format l
  → (a, b) ∈ orderedPairs l ∨ (b, a) ∈ orderedPairs l.
Proof.
  unfold schedule. rewrite list_elem_of_bind.
  intros ([c d] & Hin & Hp). revert Hin. simpl.
  case_decide; rewrite !elem_of_cons;
    intros H'; destruct_or?; simplify_eq; auto; by apply elem_of_nil in H'.
Qed.

(** C3: for a group whose participant ids are pairwise distinct, the single
    format yields one pending fixture [(p_i, p_j)] for each [i < j], in that
    order: [n * (n - 1) / 2] fixtures, exactly one for each unordered pair
    of distinct participants; the home-and-away format yields each of these
    followed at once by its mirror: [n * (n - 1)] fixtures, exactly one for
    each ordered pair of distinct participants.  In every format the
    fixtures are pending with unset scores, carry the name of the group, and
    never pair a participant with themselves. *)
Theorem round_robin_schedule (participantMap : gmap string Participant)
    (group : Group) :
  NoDup (g_participantIds group) →
  sides <$> groupFixtures participantMap "single" group
  = orderedPairs (g_participantIds group)
  ∧ length (groupFixtures participantMap "single" group)
    = (length (g_participantIds group)
       * (length (g_participantIds group) - 1) / 2)%nat
  ∧ (∀ a b, a ∈ g_participantIds group → b ∈ g_participantIds group → a ≠ b →
       length (filter (λ m, sides m = (a, b) ∨ sides m = (b, a))
                      (groupFixtures participantMap "single" group)) = 1%nat)
  ∧ sides <$> groupFixtures participantMap "home_and_away" group
    = (p ← orderedPairs (g_participantIds group); [p; (p.2, p.1)])
  ∧ length (groupFixtures participantMap "home_and_away" group)
    = (length (g_participantIds group)
       * (length (g_participantIds group) - 1))%nat
  ∧ (∀ a b, a ∈ g_participantIds group → b ∈ g_participantIds group → a ≠ b →
       length (filter (λ m, sides m = (a, b))
                      (groupFixtures participantMap "home_and_away" group))
       = 1%nat)
  ∧ (∀ format,
       Forall (λ m, isPending m ∧ m_groupName m = g_name group
                    ∧ m_homeParticipantId m ≠ m_awayParticipantId m
                    ∧ m_homeParticipantId m ∈ g_participantIds group
                    ∧ m_awayParticipantId m ∈ g_participantIds group)
              (groupFixtures participantMap format group))
  ∧ (∀ a b, (a, b) ∈ orderedPairs (g_participantIds group)
            ↔ ∃ i j, (i < j)%nat ∧ g_participantIds group !! i = Some a
                     ∧ g_participantIds group !! j = Some b).
Proof.
  intros Hnd. split_and!.
  - by rewrite groupFixtures_sides, schedule_single.
  - rewrite groupFixtures_length, schedule_length, decide_False by done.
    rewrite <- orderedPairs_length.
    rewrite (Nat.mul_comm 2), Nat.div_mul by done. lia.
  - intros a b Ha Hb Hab.
    etrans;
      [exact (filter_fmap_length sides (λ p, p = (a, b) ∨ p = (b, a)) _)|].
    rewrite groupFixtures_sides, schedule_single.
    destruct (orderedPairs_total a b _ Ha Hb Hab) as [Hin|Hin].
    + apply (filter_length_one _ _ (a, b)); auto using orderedPairs_NoDup.
      intros y Hy [->| ->]; [done|].
      by destruct (orderedPairs_asym _ _ _ Hnd Hin).
    + apply (filter_length_one _ _ (b, a)); auto using orderedPairs_NoDup.
      intros y Hy [->| ->]; [|done].
      by destruct (orderedPairs_asym _ _ _ Hnd Hin).
  - rewrite groupFixtures_sides. unfold schedule.
    by destruct (decide ("home_and_away" = "home_and_away")).
  - rewrite groupFixtures_length, schedule_length, decide_True by done.
    by rewrite orderedPairs_length.
  - intros a b Ha Hb Hab.
    etrans; [exact (filter_fmap_length sides (λ p, p = (a, b)) _)|].
    rewrite groupFixtures_sides.
    apply (filter_length_one _ _ (a, b));
      auto using schedule_return_NoDup.
    apply elem_of_schedule_return. by apply orderedPairs_total.
  - intros format.
    pose proof (groupFixtures_pending participantMap format group) as Hp.
    rewrite Forall_forall in Hp. apply Forall_forall. intros m Hm.
    destruct (Hp m Hm) as (? & ? & _).
    assert (sides m ∈ schedule format (g_participantIds group)) as Hs.
    { rewrite <- (groupFixtures_sides participantMap).
      by apply list_elem_of_fmap_2. }
    unfold sides in Hs. split_and!; try done.
    + intros Heq. rewrite Heq in Hs.
      apply elem_of_schedule in Hs as [Hs|Hs];
        by apply orderedPairs_irrefl in Hs.
    + apply elem_of_schedule in Hs as [Hs|Hs];
        apply orderedPairs_elem in Hs; tauto.
    + apply elem_of_schedule in Hs as [Hs|Hs];
        apply orderedPairs_elem in Hs; tauto.
  - intros a b. apply elem_of_orderedPairs.
Qed.

Lemma round_robin_schedule_witness :
  NoDup (g_participantIds scenarioGroup)
  ∧ sides <$> groupFixtures ∅ "single" scenarioGroup
    = [("A", "B"); ("A", "C"); ("B", "C")]
  ∧ length (groupFixtures ∅ "home_and_away" scenarioGroup) = 6%nat.
Proof.
  assert (NoDup (g_participantIds scenarioGroup)) as Hnd
    by (apply (bool_decide_unpack _); vm_compute; exact I).
  split; [exact Hnd|].
  destruct (round_robin_schedule ∅ scenarioGroup Hnd)
    as (Hsingle & _ & _ & _ & Hreturn & _).
  split; [exact Hsingle|exact Hreturn].
Defined.

(** The batch of the handler holds the fixtures of every group. *)
Example scenario_batch :
  sides <$> handleGenerateMatches sampleMap scenarioChampionship
  = [("A", "B"); ("A", "C"); ("B", "C"); ("D", "E")].
Proof. vm_compute. reflexivity. Qed.

Example scenario_fixtures_return :
  sides <$> groupFixtures ∅ "home_and_away" scenarioGroup
  = [("A", "B"); ("B", "A"); ("A", "C"); ("C", "A"); ("B", "C"); ("C", "B")].
Proof. vm_compute. reflexivity. Qed.

(** ** The partition of [handleGenerateGroups] *)

Lemma stripe_snoc g k l x :
  stripe g k (l ++ [x])
  = stripe g k l ++ (if decide ((length l `mod` g)%nat = k) then [x] else []).
Proof.
  unfold stripe. rewrite imap_app, filter_app, fmap_app. f_equal.
  simpl. rewrite filter_cons, Nat.add_0_r. simpl. by case_decide.
Qed.

Lemma striped_nil g :
  Z.of_nat g < 2 ^ 32 → emptyGroups (Z.of_nat g) = Some (striped g []).
Proof.
  intros Hg. unfold striped, emptyGroups.
  by rewrite decide_True, Nat2Z.id by done.
Qed.

Lemma rem_index (i : nat) (numGroups : Z) :
  1 ≤ numGroups →
  Z.to_nat (Z.rem (Z.of_nat i) numGroups) = (i `mod` Z.to_nat numGroups)%nat.
Proof.
  intros Hg. rewrite Z.rem_mod_nonneg by lia.
  rewrite <- (Z2Nat.id numGroups) at 1 by lia.
  rewrite <- Nat2Z.inj_mod. apply Nat2Z.id.
Qed.

Lemma assign_striped numGroups l p :
  1 ≤ numGroups →
  assignParticipant numGroups (striped (Z.to_nat numGroups) l) (length l, p)
  = striped (Z.to_nat numGroups) (l ++ [p_id p]).
Proof.
  intros Hg. unfold assignParticipant. simpl. rewrite rem_index by done.
  set (g := Z.to_nat numGroups). assert (0 < g)%nat as Hpos by lia.
  apply list_eq; intros k. unfold striped.
  destruct (decide (k = length l `mod` g)%nat) as [->|Hk].
  - rewrite list_lookup_alter_eq, !list_lookup_fmap.
    destruct (seq 0 g !! _) as [k|] eqn:Hseq; simpl; [|done].
    apply lookup_seq in Hseq as [-> _]. simpl.
    unfold pushParticipant. simpl. rewrite stripe_snoc.
    by rewrite decide_True.
  - rewrite list_lookup_alter_ne by done. rewrite !list_lookup_fmap.
    destruct (seq 0 g !! k) as [k'|] eqn:Hseq; simpl; [|done].
    apply lookup_seq in Hseq as [-> _]. simpl.
    rewrite stripe_snoc, decide_False by done. by rewrite app_nil_r.
Qed.

Lemma foldl_assign_striped numGroups (rest : list Participant) (l : list string) :
  1 ≤ numGroups →
  foldl (assignParticipant numGroups) (striped (Z.to_nat numGroups) l)
        (imap (λ i p, ((length l + i)%nat, p)) rest)
  = striped (Z.to_nat numGroups) (l ++ (p_id <$> rest)).
Proof.
  intros Hg. revert l. induction rest as [|p rest IH]; intros l.
  - by rewrite app_nil_r.
  - rewrite imap_cons, fmap_cons. cbn [foldl].
    rewrite Nat.add_0_r, assign_striped by done.
    replace (l ++ p_id p :: (p_id <$> rest))
      with ((l ++ [p_id p]) ++ (p_id <$> rest)) by (by rewrite <- app_assoc).
    rewrite <- IH. f_equal. apply imap_ext. intros i q _. simpl.
    rewrite length_app. simpl. f_equal. lia.
Qed.

Lemma distribute_striped numGroups shuffled :
  1 ≤ numGroups → numGroups < 2 ^ 32 →
  distribute numGroups shuffled
  = Some (striped (Z.to_nat numGroups) (p_id <$> shuffled)).
Proof.
  intros Hg Hlimit. unfold distribute.
  pose proof (striped_nil (Z.to_nat numGroups)) as Hnil.
  rewrite Z2Nat.id in Hnil by lia. rewrite Hnil by done. simpl. f_equal.
  exact (foldl_assign_striped numGroups shuffled [] Hg).
Qed.

Lemma distribute_limit numGroups shuffled :
  2 ^ 32 ≤ numGroups → distribute numGroups shuffled = None.
Proof.
  intros Hlimit. unfold distribute, emptyGroups.
  by rewrite decide_False by lia.
Qed.

Lemma elem_of_stripe g k l x :
  x ∈ stripe g k l ↔ ∃ i, l !! i = Some x ∧ (i `mod` g)%nat = k.
Proof.
  unfold stripe. rewrite list_elem_of_fmap. split.
  - intros ([i y] & -> & [Hi Hin]%list_elem_of_filter).
    apply elem_of_lookup_imap in Hin as (i' & y' & [= -> ->] & Hl). eauto.
  - intros (i & Hl & Hi). exists (i, x). split; [done|].
    apply list_elem_of_filter. split; [done|].
    apply elem_of_lookup_imap. eauto.
Qed.

Lemma stripe_sublist g k l : stripe g k l `sublist_of` l.
Proof.
  unfold stripe.
  assert ((imap pair l).*2 = l) as Hl.
  { rewrite fmap_imap. apply list_eq. intros i.
    rewrite list_lookup_imap. by destruct (l !! i). }
  rewrite <- Hl at 2. apply fmap_sublist, sublist_filter.
Qed.

Lemma div_mod_succ (n g : nat) :
  (0 < g)%nat →
  ((S n `mod` g = 0 ∧ S n `div` g = S (n `div` g) ∧ S (n `mod` g) = g)
   ∨ (S n `mod` g = S (n `mod` g) ∧ S n `div` g = n `div` g))%nat.
Proof.
  intros Hg.
  pose proof (Nat.div_mod_eq n g) as Hn.
  pose proof (Nat.mod_upper_bound n g ltac:(lia)) as Hr.
  destruct (decide (S (n `mod` g) = g)) as [Heq|Hne].
  - left.
    assert (S n = g * S (n `div` g) + 0)%nat as Hs by lia.
    split_and!; [|symmetry|done].
    + symmetry. eapply (Nat.mod_unique _ _ (S (n `div` g))); [lia|exact Hs].
    + eapply (Nat.div_unique _ _ _ 0%nat); [lia|exact Hs].
  - right.
    assert (S n = g * (n `div` g) + S (n `mod` g))%nat as Hs by lia.
    split; symmetry.
    + eapply (Nat.mod_unique _ _ (n `div` g)); [lia|exact Hs].
    + eapply (Nat.div_unique _ _ _ (S (n `mod` g))); [lia|exact Hs].
Qed.

Lemma stripe_length g k l :
  (0 < g)%nat → (k < g)%nat →
  length (stripe g k l)
  = (length l `div` g
     + (if decide (k < length l `mod` g)%nat then 1 else 0))%nat.
Proof.
  intros Hg Hk. induction l as [|x l IH] using rev_ind.
  - simpl. rewrite Nat.Div0.div_0_l, Nat.Div0.mod_0_l.
    by rewrite decide_False by lia.
  - rewrite stripe_snoc, !length_app, IH. simpl.
    rewrite Nat.add_1_r.
    destruct (div_mod_succ (length l) g Hg) as [(Hm & Hd & Hr)|[Hm Hd]];
      rewrite Hm, Hd; repeat case_decide; simpl; lia.
Qed.

Lemma ceil_div (n g : nat) :
  (0 < g)%nat →
  ((n + g - 1) `div` g
   = n `div` g + (if decide (n `mod` g = 0) then 0 else 1))%nat.
Proof.
  intros Hg.
  pose proof (Nat.div_mod_eq n g) as Hn.
  pose proof (Nat.mod_upper_bound n g ltac:(lia)) as Hr.
  case_decide as H0; symmetry.
  - eapply (Nat.div_unique _ _ _ (g - 1)%nat); [lia|]. lia.
  - eapply (Nat.div_unique _ _ _ (n `mod` g - 1)%nat); [lia|]. lia.
Qed.

Lemma concat_alter_push x r (gs : list Group) :
  (r < length gs)%nat →
  concat (g_participantIds <$> alter (pushParticipant x) r gs)
  ≡ₚ x :: concat (g_participantIds <$> gs).
Proof.
  revert r. induction gs as [|G gs IH]; intros r Hr; simpl in Hr; [lia|].
  destruct r as [|r]; csimpl.
  - rewrite <- app_assoc. simpl. by rewrite <- Permutation_middle.
  - rewrite IH by lia. by rewrite <- Permutation_middle.
Qed.

Lemma striped_length g l : length (striped g l) = g.
Proof. unfold striped. by rewrite length_fmap, length_seq. Qed.

Lemma striped_perm g l :
  (0 < g)%nat → concat (g_participantIds <$> striped g l) ≡ₚ l.
Proof.
  intros Hg. induction l as [|x l IH] using rev_ind.
  - unfold striped. induction (seq 0 g) as [|k ks IHk]; [done|]. simpl.
    exact IHk.
  - pose proof (assign_striped (Z.of_nat g) l (mkParticipant x "")) as Ha.
    rewrite Nat2Z.id in Ha. simpl in Ha. rewrite <- Ha by lia.
    unfold assignParticipant. simpl.
    rewrite concat_alter_push, IH.
    + by rewrite <- Permutation_cons_append.
    + rewrite striped_length, rem_index, Nat2Z.id by lia.
      apply Nat.mod_upper_bound. lia.
Qed.

Lemma striped_lookup g l k :
  (k < g)%nat →
  striped g l !! k
  = Some {| g_name := groupLabel k; g_participantIds := stripe g k l |}.
Proof.
  intros Hk. unfold striped.
  by rewrite list_lookup_fmap, lookup_seq_lt.
Qed.

Lemma striped_lookup_inv g l k G :
  striped g l !! k = Some G →
  (k < g)%nat ∧ g_participantIds G = stripe g k l.
Proof.
  intros HG. pose proof (lookup_lt_Some _ _ _ HG) as Hk.
  rewrite striped_length in Hk. rewrite striped_lookup in HG by done.
  by injection HG as <-.
Qed.

Lemma handleGenerateGroups_groups champ participants shuffled :
  (2 ≤ length participants)%nat → 1 ≤ numGroups (c_groupStage champ) →
  numGroups (c_groupStage champ) < 2 ^ 32 →
  (handleGenerateGroups champ participants shuffled).1 = None
  ∧ c_groups (handleGenerateGroups champ participants shuffled).2
    = striped (Z.to_nat (numGroups (c_groupStage champ))) (p_id <$> shuffled).
Proof.
  intros Hn Hg Hlimit. unfold handleGenerateGroups.
  rewrite decide_False by lia. by rewrite distribute_striped.
Qed.

(** C4: with at least two participants and at least one group, and fewer
    groups than the [2^32] at which no array can be created, whatever
    permutation of the participants the shuffle returned, the call ends
    with the write and the groups written are [numGroups] many; group [k]
    holds, in the order of the permutation, the ids standing at the indices
    [i] with [i mod numGroups = k], so the element at index [i] is in group
    [i mod numGroups]; every group has [n / g] or the rounded-up
    [(n + g - 1) / g] members; the groups together hold exactly the ids of
    the participants, each as often as it was given; and when the ids are
    pairwise distinct no id is in two groups. *)
Theorem groups_partition (champ : Championship)
    (participants shuffled : list Participant) :
  (2 ≤ length participants)%nat →
  1 ≤ numGroups (c_groupStage champ) →
  numGroups (c_groupStage champ) < 2 ^ 32 →
  shuffled ≡ₚ participants →
  (handleGenerateGroups champ participants shuffled).1 = None
  ∧ length (c_groups (handleGenerateGroups champ participants shuffled).2)
    = Z.to_nat (numGroups (c_groupStage champ))
  ∧ (∀ k, (k < Z.to_nat (numGroups (c_groupStage champ)))%nat →
       g_participantIds
         <$> c_groups (handleGenerateGroups champ participants shuffled).2 !! k
       = Some (stripe (Z.to_nat (numGroups (c_groupStage champ))) k
                      (p_id <$> shuffled)))
  ∧ (∀ i p, shuffled !! i = Some p →
       ∃ G, c_groups (handleGenerateGroups champ participants shuffled).2
              !! (i `mod` Z.to_nat (numGroups (c_groupStage champ)))%nat
            = Some G
            ∧ p_id p ∈ g_participantIds G)
  ∧ (∀ G, G ∈ c_groups (handleGenerateGroups champ participants shuffled).2 →
       g_participantIds G `sublist_of` p_id <$> shuffled)
  ∧ (∀ G, G ∈ c_groups (handleGenerateGroups champ participants shuffled).2 →
       length (g_participantIds G)
       = (length participants
          `div` Z.to_nat (numGroups (c_groupStage champ)))%nat
       ∨ length (g_participantIds G)
         = ((length participants + Z.to_nat (numGroups (c_groupStage champ)) - 1)
            `div` Z.to_nat (numGroups (c_groupStage champ)))%nat)
  ∧ concat (g_participantIds
              <$> c_groups (handleGenerateGroups champ participants shuffled).2)
    ≡ₚ p_id <$> participants
  ∧ (NoDup (p_id <$> participants) →
     ∀ k1 k2 G1 G2 x,
       c_groups (handleGenerateGroups champ participants shuffled).2 !! k1
       = Some G1 →
       c_groups (handleGenerateGroups champ participants shuffled).2 !! k2
       = Some G2 →
       x ∈ g_participantIds G1 → x ∈ g_participantIds G2 → k1 = k2).
Proof.
  intros Hn Hg Hlimit Hperm.
  destruct (handleGenerateGroups_groups champ participants shuffled Hn Hg
              Hlimit) as [Hdone ->].
  set (g := Z.to_nat (numGroups (c_groupStage champ))).
  assert (0 < g)%nat as Hpos by lia.
  assert (length shuffled = length participants) as Hlen by by rewrite Hperm.
  split_and!.
  - exact Hdone.
  - apply striped_length.
  - intros k Hk. by rewrite striped_lookup.
  - intros i p Hi. eexists. split.
    + apply striped_lookup. by apply Nat.mod_upper_bound, Nat.neq_0_lt_0.
    + simpl. apply elem_of_stripe. exists i. split; [|done].
      by rewrite list_lookup_fmap, Hi.
  - intros G [k HG]%list_elem_of_lookup.
    apply striped_lookup_inv in HG as [_ ->]. apply stripe_sublist.
  - intros G [k HG]%list_elem_of_lookup.
    apply striped_lookup_inv in HG as [Hk ->].
    rewrite stripe_length, ceil_div, length_fmap, Hlen by done.
    repeat case_decide; lia.
  - rewrite striped_perm by done. by rewrite Hperm.
  - intros Hnd k1 k2 G1 G2 x HG1 HG2 Hx1 Hx2.
    apply striped_lookup_inv in HG1 as [Hk1 HG1].
    apply striped_lookup_inv in HG2 as [Hk2 HG2].
    rewrite HG1 in Hx1. rewrite HG2 in Hx2.
    apply elem_of_stripe in Hx1 as (i1 & Hi1 & <-).
    apply elem_of_stripe in Hx2 as (i2 & Hi2 & <-).
    rewrite <- Hperm in Hnd.
    by rewrite (NoDup_lookup _ _ _ _ Hnd Hi1 Hi2).
Qed.

(** C7: the generation of groups is refused, with the alert, exactly when
    there are fewer than two participants or [numGroups] is below one, and a
    refused call leaves the championship as it was.  A call that is not
    refused writes the groups, their empty tables and the [generated] flag
    when [numGroups] is below [2^32]; from [2^32] on the creation of the
    array of groups throws, and the championship is again left as it
    was. *)
Theorem generate_groups_guard (champ : Championship)
    (participants shuffled : list Participant) :
  ((handleGenerateGroups champ participants shuffled).1 = Some groupsAlert
   ↔ numGroups (c_groupStage champ) < 1 ∨ (length participants < 2)%nat)
  ∧ ((handleGenerateGroups champ participants shuffled).1 ≠ None →
     (handleGenerateGroups champ participants shuffled).2 = champ)
  ∧ ((handleGenerateGroups champ participants shuffled).1 = None
     ↔ ¬ (numGroups (c_groupStage champ) < 1 ∨ (length participants < 2)%nat)
       ∧ numGroups (c_groupStage champ) < 2 ^ 32)
  ∧ ((handleGenerateGroups champ participants shuffled).1 = Some rangeError
     ↔ ¬ (numGroups (c_groupStage champ) < 1 ∨ (length participants < 2)%nat)
       ∧ 2 ^ 32 ≤ numGroups (c_groupStage champ))
  ∧ ((handleGenerateGroups champ participants shuffled).1 = None →
     distribute (numGroups (c_groupStage champ)) shuffled
     = Some (c_groups (handleGenerateGroups champ participants shuffled).2)
     ∧ length (c_groups (handleGenerateGroups champ participants shuffled).2)
       = Z.to_nat (numGroups (c_groupStage champ))
     ∧ c_standings (handleGenerateGroups champ participants shuffled).2
       = initialStandings
           (c_groups (handleGenerateGroups champ participants shuffled).2)
     ∧ generated (c_groupStage (handleGenerateGroups champ participants shuffled).2)
       = true
     ∧ numGroups (c_groupStage (handleGenerateGroups champ participants shuffled).2)
       = numGroups (c_groupStage champ)
     ∧ c_participantIds (handleGenerateGroups champ participants shuffled).2
       = c_participantIds champ).
Proof.
  unfold handleGenerateGroups.
  destruct (decide (Z.of_nat (length participants) < 2
                    ∨ numGroups (c_groupStage champ) < 1)) as [Hguard|Hguard].
  - simpl. split_and!; try done.
    + split; [lia|done].
    + split; [done|]. intros [Hno _]. destruct Hno. lia.
    + split; [done|]. intros [Hno _]. destruct Hno. lia.
  - destruct (decide (numGroups (c_groupStage champ) < 2 ^ 32)) as [Hlimit|Hlimit].
    + rewrite distribute_striped by lia. simpl. split_and!; try done.
      * split; [done|lia].
      * split; [|done]. intros _. split; [lia|done].
      * split; [done|lia].
      * intros _. split_and!; try done. apply striped_length.
    + rewrite distribute_limit by lia. simpl. split_and!; try done.
      * split; [done|lia].
      * split; [done|]. by intros [_ ?].
      * split; [|done]. intros _. split; lia.
Qed.

(** C4, as stated, fails from [2^32] groups on: the creation of the array of
    groups throws, nothing is written, and the participants are in no
    group. *)
Lemma groups_beyond_array_limit :
  ¬ (concat (g_participantIds
               <$> c_groups (handleGenerateGroups hugeGroupsChampionship
                               sampleParticipants sampleShuffled).2)
     ≡ₚ p_id <$> sampleParticipants).
Proof.
  intros Hperm. apply Permutation_length in Hperm.
  vm_compute in Hperm. discriminate Hperm.
Qed.

Example huge_groups_throw :
  handleGenerateGroups hugeGroupsChampionship sampleParticipants sampleShuffled
  = (Some rangeError, hugeGroupsChampionship).
Proof. vm_compute. reflexivity. Qed.

Example sample_participants :
  participantsOf sampleMap scenarioChampionship = sampleParticipants.
Proof. vm_compute. reflexivity. Qed.

Lemma groups_partition_witness :
  (2 ≤ length sampleParticipants)%nat
  ∧ 1 ≤ numGroups (c_groupStage scenarioChampionship)
  ∧ numGroups (c_groupStage scenarioChampionship) < 2 ^ 32
  ∧ g_participantIds
      <$> c_groups (handleGenerateGroups scenarioChampionship
                      sampleParticipants sampleShuffled).2 !! 0%nat
    = Some ["B"; "D"; "A"]
  ∧ g_participantIds
      <$> c_groups (handleGenerateGroups scenarioChampionship
                      sampleParticipants sampleShuffled).2 !! 1%nat
    = Some ["C"; "E"].
Proof.
  assert (2 ≤ length sampleParticipants)%nat as Hn by (simpl; lia).
  assert (1 ≤ numGroups (c_groupStage scenarioChampionship)) as Hg
    by (simpl; lia).
  assert (numGroups (c_groupStage scenarioChampionship) < 2 ^ 32) as Hlimit
    by (simpl; lia).
  assert (sampleShuffled ≡ₚ sampleParticipants) as Hperm
    by (symmetry;
        exact (Permutation_cons_append
                 [ mkParticipant "B" "Bia"; mkParticipant "C" "Caio";
                   mkParticipant "D" "Davi"; mkParticipant "E" "Eva" ]
                 (mkParticipant "A" "Ana"))).
  destruct (groups_partition scenarioChampionship sampleParticipants
              sampleShuffled Hn Hg Hlimit Hperm) as (_ & _ & Hstripes & _).
  split_and!; [exact Hn|exact Hg|exact Hlimit| |].
  - apply (Hstripes 0%nat). simpl. lia.
  - apply (Hstripes 1%nat). simpl. lia.
Defined.

(** ** The manual fixture of [handleSaveManualMatch] *)

(** C6, as stated, fails: an id that is not a known participant is accepted
    when it is not empty and differs from the other side. *)
Lemma manual_match_unknown_accepted :
  ¬ (refused (handleSaveManualMatch sampleMap
                {| homeParticipantId := "A"; awayParticipantId := "Z" |})
     ↔ invalidParticipants sampleMap
         {| homeParticipantId := "A"; awayParticipantId := "Z" |}).
Proof.
  intros [_ Hrefuse].
  destruct Hrefuse as [msg Hmsg]; [|discriminate Hmsg].
  right. right. reflexivity.
Qed.

(** C6, amended: the creation is refused exactly when one of the two ids is
    empty or the two are equal; the ids are not looked up among the
    participants, an id without a participant only gets the name "?".  An
    accepted call creates one fixture: pending, scores unset, under the
    group name "Avulso", with the two ids as chosen.  When both ids come
    from the options of the selects (empty, or an id of [known], none of
    which is empty), refusal coincides with: equal, or not in [known]. *)
Theorem manual_match_guard (participantMap : gmap string Participant)
    (d : ManualMatchData) :
  (refused (handleSaveManualMatch participantMap d)
   ↔ homeParticipantId d = "" ∨ awayParticipantId d = ""
     ∨ homeParticipantId d = awayParticipantId d)
  ∧ (refused (handleSaveManualMatch participantMap d) →
     handleSaveManualMatch participantMap d = inl manualAlert)
  ∧ (∀ m, handleSaveManualMatch participantMap d = inr m →
       isPending m ∧ m_groupName m = "Avulso" ∧ m_stage m = "group"
       ∧ sides m = (homeParticipantId d, awayParticipantId d)
       ∧ m_homeParticipantName m
         = displayName participantMap (homeParticipantId d)
       ∧ m_awayParticipantName m
         = displayName participantMap (awayParticipantId d))
  ∧ (∀ id, participantMap !! id = None → displayName participantMap id = "?")
  ∧ (∀ known : list string,
       "" ∉ known →
       homeParticipantId d = "" ∨ homeParticipantId d ∈ known →
       awayParticipantId d = "" ∨ awayParticipantId d ∈ known →
       (refused (handleSaveManualMatch participantMap d)
        ↔ homeParticipantId d = awayParticipantId d
          ∨ homeParticipantId d ∉ known ∨ awayParticipantId d ∉ known)).
Proof.
  assert (refused (handleSaveManualMatch participantMap d)
          ↔ homeParticipantId d = "" ∨ awayParticipantId d = ""
            ∨ homeParticipantId d = awayParticipantId d) as Hguard.
  { unfold refused, handleSaveManualMatch. case_decide as Hg.
    - split; [done|]. eauto.
    - split; [by intros [? ?]|done]. }
  split_and!.
  - exact Hguard.
  - intros [msg Hmsg]. revert Hmsg. unfold handleSaveManualMatch.
    by case_decide.
  - intros m. unfold handleSaveManualMatch.
    case_decide; [done|]. intros [= <-]. by repeat split.
  - intros id Hid. unfold displayName. by rewrite Hid.
  - intros known Hempty Hh Ha. rewrite Hguard. split.
    + intros [Hx|[Hx|Hx]]; [| |by left].
      * right. left. by rewrite Hx.
      * right. right. by rewrite Hx.
    + intros [Hx|[Hx|Hx]]; [by right; right| |].
      * left. by destruct Hh.
      * right. left. by destruct Ha.
Qed.

Example manual_match_created :
  handleSaveManualMatch sampleMap
    {| homeParticipantId := "A"; awayParticipantId := "Z" |}
  = inr {| m_stage := "group"; m_groupName := "Avulso";
           m_homeParticipantId := "A"; m_awayParticipantId := "Z";
           m_homeParticipantName := "Ana"; m_awayParticipantName := "?";
           m_homeSets := None; m_awaySets := None; m_status := "pending" |}.
Proof. vm_compute. reflexivity. Qed.

(** ** The shuffle of [handleGenerateGroups] *)

Lemma pow2_pos (k : nat) : 0 < 2 ^ Z.of_nat k.
Proof. apply Z.pow_pos_nonneg; lia. Qed.

Lemma pow2_mod3 (k : nat) : (2 ^ Z.of_nat k) `mod` 3 ≠ 0.
Proof.
  induction k as [|k IH].
  - done.
  - rewrite Nat2Z.inj_succ, Z.pow_succ_r by lia.
    intros H. apply IH. revert H.
    generalize (2 ^ Z.of_nat k). intros x.
    rewrite !Z.mod_divide by lia. intros Hd.
    apply (Z.gauss 3 2 x) in Hd; [done|]. reflexivity.
Qed.

Lemma dyadic_0 : dyadic 0%Q.
Proof. exists 0, 0%nat. reflexivity. Qed.

Lemma dyadic_1 : dyadic 1%Q.
Proof. exists 1, 0%nat. reflexivity. Qed.

Lemma dyadic_plus q r : dyadic q → dyadic r → dyadic (q + r)%Q.
Proof.
  intros (m & k & Hq) (n & j & Hr).
  exists (m * 2 ^ Z.of_nat j + n * 2 ^ Z.of_nat k), (k + j)%nat.
  rewrite Nat2Z.inj_add, Z.pow_add_r by lia.
  rewrite inject_Z_plus, !inject_Z_mult, <- Hq, <- Hr. ring.
Qed.

Lemma dyadic_mult q r : dyadic q → dyadic r → dyadic (q * r)%Q.
Proof.
  intros (m & k & Hq) (n & j & Hr).
  exists (m * n), (k + j)%nat.
  rewrite Nat2Z.inj_add, Z.pow_add_r by lia.
  rewrite !inject_Z_mult, <- Hq, <- Hr. ring.
Qed.

Lemma dyadic_chance bits (P : Z → Prop) `{∀ v, Decision (P v)} :
  dyadic (chance bits P).
Proof.
  unfold chance. eexists _, (S bits).
  unfold Qeq, Qmult, inject_Z. simpl Qnum. simpl Qden.
  rewrite Pos.mul_1_r, Z2Pos.id by apply pow2_pos. ring.
Qed.

Lemma dyadic_probability {R} `{EqDecision R} bits (t : SortRun R) (out : R) :
  dyadic (probability bits t out).
Proof.
  induction t as [r|n IHn z IHz p IHp]; simpl.
  - case_decide; [apply dyadic_1|apply dyadic_0].
  - repeat apply dyadic_plus; apply dyadic_mult;
      auto using dyadic_chance.
Qed.

(** The probability of an outcome is the share of the equally likely
    sequences of draws on which the run returns it. *)
Lemma length_outcomes bits :
  Z.of_nat (length (outcomes bits)) = 2 ^ Z.of_nat (S bits).
Proof.
  unfold outcomes. rewrite length_seqZ, Z2Nat.id; [done|].
  pose proof (pow2_pos (S bits)). lia.
Qed.

Lemma length_drawSequences bits d :
  Z.of_nat (length (drawSequences bits d)) = (2 ^ Z.of_nat (S bits)) ^ Z.of_nat d.
Proof.
  pose proof (length_outcomes bits) as HD.
  set (D := 2 ^ Z.of_nat (S bits)) in *.
  induction d as [|d IH]; [done|].
  rewrite (Nat2Z.inj_succ d), Z.pow_succ_r, <- IH, <- HD by lia.
  cbn [drawSequences]. generalize (outcomes bits) as l.
  induction l as [|k l IHl]; [simpl; lia|].
  rewrite bind_cons, length_app, length_fmap. simpl length. lia.
Qed.

Lemma chance_share bits (P : Z → Prop) `{∀ v, Decision (P v)} :
  (chance bits P * inject_Z (2 ^ Z.of_nat (S bits))
   == inject_Z (Z.of_nat (length (filter (λ k, P (randomCompare bits k))
                                         (outcomes bits)))))%Q.
Proof.
  unfold chance, Qeq, Qmult, inject_Z. simpl Qnum. simpl Qden.
  rewrite Pos.mul_1_r, Z2Pos.id by apply pow2_pos. ring.
Qed.

Lemma favourable_Compare {R} `{EqDecision R} bits d (n z p : SortRun R) out :
  favourable bits (S d) (Compare n z p) out
  = (length (filter (λ k, (randomCompare bits k < 0)%Z) (outcomes bits))
       * favourable bits d n out
     + length (filter (λ k, randomCompare bits k = 0%Z) (outcomes bits))
       * favourable bits d z out
     + length (filter (λ k, (0 < randomCompare bits k)%Z) (outcomes bits))
       * favourable bits d p out)%nat.
Proof.
  unfold favourable. cbn [drawSequences].
  generalize (outcomes bits) as l.
  induction l as [|k l IHl]; [done|].
  rewrite bind_cons, filter_app, length_app, IHl.
  rewrite <- (filter_fmap_length (cons k)
                (λ ks, runSort bits (Compare n z p) ks = Some out)).
  rewrite !(filter_cons _ k l). simpl runSort.
  repeat case_decide; simpl length; lia.
Qed.

Lemma probability_share {R} `{EqDecision R} bits (t : SortRun R) out d :
  (depth t ≤ d)%nat →
  (probability bits t out * inject_Z ((2 ^ Z.of_nat (S bits)) ^ Z.of_nat d)
   == inject_Z (Z.of_nat (favourable bits d t out)))%Q.
Proof.
  revert d. induction t as [r|n IHn z IHz p IHp]; intros d Hd.
  - unfold favourable. simpl probability.
    rewrite <- length_drawSequences.
    assert (∀ l : list (list Z),
              filter (λ ks, runSort bits (Done r) ks = Some out) l
              = if decide (r = out) then l else []) as ->.
    { intros l. induction l as [|ks l IHl]; [by case_decide|].
      rewrite filter_cons, IHl. simpl. by repeat case_decide; simplify_eq. }
    case_decide; simpl length; [apply Qmult_1_l|by rewrite Qmult_0_l].
  - destruct d as [|d]; [simpl in Hd; lia|]. simpl in Hd.
    rewrite favourable_Compare.
    rewrite !Nat2Z.inj_add, !Nat2Z.inj_mul, !inject_Z_plus, !inject_Z_mult.
    rewrite <- (IHn d), <- (IHz d), <- (IHp d) by lia.
    pose proof (chance_share bits (λ v, (v < 0)%Z)) as Hcn.
    pose proof (chance_share bits (λ v, v = 0%Z)) as Hcz.
    pose proof (chance_share bits (λ v, (0 < v)%Z)) as Hcp.
    simpl in Hcn, Hcz, Hcp. rewrite <- Hcn, <- Hcz, <- Hcp.
    rewrite (Nat2Z.inj_succ d), Z.pow_succ_r, inject_Z_mult by lia.
    simpl probability. ring.
Qed.

Lemma dyadic_not_third_multiple q (p : positive) :
  (3 | Z.pos p) → dyadic q → ¬ (q == 1 # p)%Q.
Proof.
  intros [c Hc] (m & k & Hq) Heq. rewrite Heq in Hq.
  unfold Qeq, Qmult, inject_Z in Hq. simpl in Hq.
  apply (pow2_mod3 k). apply Z.mod_divide; [lia|].
  exists (m * c). lia.
Qed.

Lemma fact_divide_3 (n : nat) : (3 ≤ n)%nat → (3 | Z.of_nat (fact n)).
Proof.
  induction 1 as [|n Hn IH].
  - by exists 2.
  - change (fact (S n)) with (S n * fact n)%nat.
    rewrite Nat2Z.inj_mul. by apply Z.divide_mul_r.
Qed.

(** C5, on the code: whatever sort the engine runs with the comparator
    [() => 0.5 - Math.random()], and whatever the resolution of
    [Math.random()], the permutations of three or more participants are not
    equally likely: the probability of an outcome is a sum of products of
    shares of the equally likely values of [Math.random()], a number of the
    form [m / 2^k], and [1 / n!] is not of that form when [n >= 3]. *)
Theorem shuffle_not_uniform (bits : nat) (t : SortRun (list Participant))
    (participants : list Participant) :
  (3 ≤ length participants)%nat → ¬ uniformShuffle bits t participants.
Proof.
  intros Hn Huni. specialize (Huni participants (reflexivity _)).
  revert Huni. apply dyadic_not_third_multiple.
  - replace (Z.pos (Pos.of_nat (fact (length participants))))
      with (Z.of_nat (fact (length participants))).
    + by apply fact_divide_3.
    + pose proof (lt_O_fact (length participants)). lia.
  - apply dyadic_probability.
Qed.

Lemma shuffle_not_uniform_witness :
  (3 ≤ length sampleTrio)%nat
  ∧ ¬ uniformShuffle 3 (sortByRun sampleTrio) sampleTrio.
Proof.
  assert (3 ≤ length sampleTrio)%nat as Hn by (simpl; lia).
  split; [exact Hn|].
  exact (shuffle_not_uniform 3 (sortByRun sampleTrio) sampleTrio Hn).
Defined.

(** With the insertion sort in the place of the engine's sort and
    [Math.random()] returning sixteenths, the six orders of three
    participants have the chances 1/4, 1/8, 1/8, 1/4, 1/8, 1/8. *)
Example trio_distribution :
  (λ out, Qred (probability 3 (sortByRun sampleTrio) out))
    <$> permutations sampleTrio
  = [1 # 4; 1 # 8; 1 # 8; 1 # 4; 1 # 8; 1 # 8]%Q.
Proof. vm_compute. reflexivity. Qed.

(** The same run on a given sequence of numbers drawn. *)
Example trio_run :
  runSort 3 (sortByRun sampleTrio) [3; 12]
  = Some [ mkParticipant "A" "Ana"; mkParticipant "C" "Caio";
           mkParticipant "B" "Bia" ].
Proof. vm_compute. reflexivity. Qed.

(** * Further properties of the handlers *)

(** ** The standings as sums *)

Lemma row_ext (r1 r2 : Row) :
  participantId r1 = participantId r2 → played r1 = played r2 →
  wins r1 = wins r2 → losses r1 = losses r2 → setsFor r1 = setsFor r2 →
  setsAgainst r1 = setsAgainst r2 → setDifference r1 = setDifference r2 →
  points r1 = points r2 → r1 = r2.
Proof. destruct r1, r2; simpl; by intros -> -> -> -> -> -> -> ->. Qed.

Lemma tallyStep_field (f : Row → Z) (δh δa : Match → Z) s m :
  (∀ r, f (creditHome m r) = f r + δh m) →
  (∀ r, f (creditAway m r) = f r + δa m) →
  f (tallyStep s m)
  = f s + (if decide (m_homeParticipantId m = participantId s) then δh m else 0)
    + (if decide (m_awayParticipantId m = participantId s) then δa m else 0).
Proof.
  intros Hh Ha. unfold tallyStep.
  repeat case_decide; rewrite ?Ha, ?Hh; lia.
Qed.

Lemma specStep_id s m : participantId (specStep s m) = participantId s.
Proof. unfold specStep. by repeat case_decide. Qed.

Lemma specStep_field (f : Row → Z) (δh δa : Match → Z) s m :
  (∀ r, f (specCredit (scoreOf (m_homeSets m)) (scoreOf (m_awaySets m)) r)
        = f r + δh m) →
  (∀ r, f (specCredit (scoreOf (m_awaySets m)) (scoreOf (m_homeSets m)) r)
        = f r + δa m) →
  f (specStep s m)
  = f s + (if decide (m_homeParticipantId m = participantId s) then δh m else 0)
    + (if decide (m_awayParticipantId m = participantId s) then δa m else 0).
Proof.
  intros Hh Ha. unfold specStep.
  repeat case_decide; rewrite ?Ha, ?Hh; lia.
Qed.

Lemma specStep_field_comm (f : Row → Z) (δh δa : Match → Z) s m1 m2 :
  (∀ m r, f (specCredit (scoreOf (m_homeSets m)) (scoreOf (m_awaySets m)) r)
          = f r + δh m) →
  (∀ m r, f (specCredit (scoreOf (m_awaySets m)) (scoreOf (m_homeSets m)) r)
          = f r + δa m) →
  f (specStep (specStep s m1) m2) = f (specStep (specStep s m2) m1).
Proof.
  intros Hh Ha.
  rewrite !(specStep_field f δh δa) by auto.
  rewrite !specStep_id. lia.
Qed.

(** In the arithmetic of the integers two fixtures can be applied to a row
    in either order. *)
Lemma specStep_comm s m1 m2 :
  specStep (specStep s m1) m2 = specStep (specStep s m2) m1.
Proof.
  apply row_ext.
  - by rewrite !specStep_id.
  - apply (specStep_field_comm played (λ _, 1) (λ _, 1)); done.
  - apply (specStep_field_comm wins
             (λ m, if decide (scoreOf (m_homeSets m) > scoreOf (m_awaySets m)) then 1 else 0)
             (λ m, if decide (scoreOf (m_awaySets m) > scoreOf (m_homeSets m)) then 1 else 0));
      intros m r; simpl; case_decide; lia.
  - apply (specStep_field_comm losses
             (λ m, if decide (scoreOf (m_homeSets m) > scoreOf (m_awaySets m)) then 0 else 1)
             (λ m, if decide (scoreOf (m_awaySets m) > scoreOf (m_homeSets m)) then 0 else 1));
      intros m r; simpl; case_decide; lia.
  - apply (specStep_field_comm setsFor (λ m, scoreOf (m_homeSets m))
             (λ m, scoreOf (m_awaySets m))); done.
  - apply (specStep_field_comm setsAgainst (λ m, scoreOf (m_awaySets m))
             (λ m, scoreOf (m_homeSets m))); done.
  - apply (specStep_field_comm setDifference (λ _, 0) (λ _, 0));
      intros m r; simpl; lia.
  - apply (specStep_field_comm points
             (λ m, if decide (scoreOf (m_homeSets m) > scoreOf (m_awaySets m)) then 2 else 1)
             (λ m, if decide (scoreOf (m_awaySets m) > scoreOf (m_homeSets m)) then 2 else 1));
      intros m r; simpl; case_decide; lia.
Qed.

Lemma foldl_comm_perm {A B} (f : A → B → A) (l1 l2 : list B) :
  (∀ s a b, f (f s a) b = f (f s b) a) →
  l1 ≡ₚ l2 → ∀ s, foldl f s l1 = foldl f s l2.
Proof.
  intros Hcomm. induction 1 as [|x l1 l2 _ IH|x y l|l1 l2 l3 _ IH1 _ IH2];
    intros s; simpl.
  - done.
  - apply IH.
  - by rewrite Hcomm.
  - by rewrite IH1.
Qed.

Lemma safeScores_perm ms ms' : ms ≡ₚ ms' → safeScores ms → safeScores ms'.
Proof. unfold safeScores. intros Hp. by rewrite (total_perm _ _ _ Hp). Qed.

(** Inside the range the row of a participant does not depend on the order
    of the fixtures. *)
Lemma tally_perm ms ms' pid :
  safeScores ms → ms ≡ₚ ms' → tally ms pid = tally ms' pid.
Proof.
  intros Hsafe Hp.
  destruct (tally_spec ms pid Hsafe) as [-> _].
  destruct (tally_spec ms' pid (safeScores_perm _ _ Hp Hsafe)) as [-> _].
  by apply foldl_comm_perm; [apply specStep_comm|].
Qed.

Lemma total_fmap_same (f : Row → Z) (g : Row → Row) l :
  (∀ r, f (g r) = f r) → total f (g <$> l) = total f l.
Proof.
  intros Hg. induction l as [|r l IH]; [done|].
  rewrite fmap_cons, !total_cons, Hg, IH. done.
Qed.

Lemma total_zero (f : Row → Z) (ids : list string) :
  (∀ p, f (newRow p) = 0) → total f (newRow <$> ids) = 0.
Proof.
  intros Hf. induction ids as [|p ids IH]; [done|].
  rewrite fmap_cons, total_cons, Hf, IH. done.
Qed.

Lemma total_alter (f : Row → Z) (g : Row → Row) δ st i :
  (i < length st)%nat → (∀ r, f (g r) = f r + δ) →
  total f (alter g i st) = total f st + δ.
Proof.
  intros Hi Hg. revert i Hi.
  induction st as [|r st IH]; intros i Hi; simpl in Hi; [lia|].
  destruct i as [|i].
  - change (alter g 0%nat (r :: st)) with (g r :: st).
    rewrite !total_cons, Hg. lia.
  - change (alter g (S i) (r :: st)) with (r :: alter g i st).
    rewrite !total_cons, IH by lia. lia.
Qed.

Lemma findRef_elem (p : string) (st : list Row) :
  p ∈ participantId <$> st →
  ∃ i, findRef (λ s, participantId s = p) st = Some i ∧ (i < length st)%nat.
Proof.
  intros (r & Hr & Hin)%list_elem_of_fmap.
  destruct (list_find_elem_of (λ s, participantId s = p) st r Hin)
    as [[i x] Hfind]; [done|].
  exists i. unfold findRef. rewrite Hfind. split; [done|].
  apply list_find_Some in Hfind as (Hi & _). by eapply lookup_lt_Some.
Qed.

Lemma total_applyMatch (f : Row → Z) δh δa st m :
  (∀ r, f (creditHome m r) = f r + δh) →
  (∀ r, f (creditAway m r) = f r + δa) →
  m_homeParticipantId m ∈ participantId <$> st →
  m_awayParticipantId m ∈ participantId <$> st →
  total f (applyMatch st m) = total f st + δh + δa.
Proof.
  intros Hh Ha Hin_h Hin_a. unfold applyMatch.
  destruct (findRef_elem _ _ Hin_h) as (i & -> & Hi).
  destruct (findRef_elem _ _ Hin_a) as (j & -> & Hj). simpl.
  rewrite (total_alter f _ δa) by (by rewrite ?length_alter).
  by rewrite (total_alter f _ δh).
Qed.

Lemma total_fold (f : Row → Z) (δh δa : Match → Z) ms st :
  (∀ m r, f (creditHome m r) = f r + δh m) →
  (∀ m r, f (creditAway m r) = f r + δa m) →
  Forall (λ m, m_homeParticipantId m ∈ participantId <$> st
               ∧ m_awayParticipantId m ∈ participantId <$> st) ms →
  total f (foldl applyMatch st ms)
  = total f st + total (λ m, δh m + δa m) ms.
Proof.
  intros Hh Ha Hall. revert st Hall.
  induction ms as [|m ms IH]; intros st Hall.
  - simpl. unfold total at 3. simpl. lia.
  - apply Forall_cons in Hall as [[Hm1 Hm2] Hall].
    cbn [foldl]. rewrite total_cons, IH.
    + rewrite (total_applyMatch f (δh m) (δa m)) by auto. lia.
    + rewrite applyMatch_ids. exact Hall.
Qed.

Lemma total_const {A} (c : Z) (l : list A) :
  total (λ _, c) l = c * Z.of_nat (length l).
Proof.
  induction l as [|x l IH]; [unfold total; simpl; lia|].
  rewrite total_cons, IH. simpl length. lia.
Qed.

Lemma total_indicator {A} (P : A → Prop) `{∀ x, Decision (P x)} (l : list A) :
  total (λ x, if decide (P x) then 1 else 0) l
  = Z.of_nat (length (filter P l)).
Proof.
  induction l as [|x l IH]; [done|].
  rewrite total_cons, filter_cons, IH.
  case_decide; simpl length; lia.
Qed.

Lemma total_plus {A} (f g : A → Z) l :
  total (λ r, f r + g r) l = total f l + total g l.
Proof.
  induction l as [|r l IH]; [done|]. rewrite !total_cons, IH. lia.
Qed.

Lemma total_ext {A} (g h : A → Z) (l : list A) :
  (∀ x, g x = h x) → total g l = total h l.
Proof.
  intros Hgh. induction l as [|x l IH]; [done|].
  by rewrite !total_cons, Hgh, IH.
Qed.

(** The sums of the counters after the fold, when every counted fixture is
    between participants of the group. *)
Lemma folded_totals group ms gn :
  Forall (bothInGroup group) (groupMatches ms gn) →
  total played (foldedStandings group ms gn)
  = 2 * Z.of_nat (length (groupMatches ms gn))
  ∧ total wins (foldedStandings group ms gn)
    = Z.of_nat (length (filter decided (groupMatches ms gn)))
  ∧ total wins (foldedStandings group ms gn)
    + total losses (foldedStandings group ms gn)
    = 2 * Z.of_nat (length (groupMatches ms gn))
  ∧ total points (foldedStandings group ms gn)
    = 2 * Z.of_nat (length (groupMatches ms gn))
      + Z.of_nat (length (filter decided (groupMatches ms gn))).
Proof.
  intros Hall. unfold foldedStandings.
  assert (Forall (λ m, m_homeParticipantId m
                         ∈ participantId <$> (newRow <$> g_participantIds group)
                       ∧ m_awayParticipantId m
                         ∈ participantId <$> (newRow <$> g_participantIds group))
                 (groupMatches ms gn)) as Hall'.
  { rewrite <- list_fmap_compose.
    replace (participantId ∘ newRow <$> g_participantIds group)
      with (g_participantIds group); [exact Hall|].
    symmetry. apply list_fmap_id. }
  set (counted := groupMatches ms gn) in *.
  pose proof (total_indicator decided counted) as Hdec.
  split_and!.
  - rewrite (total_fold played (λ _, 1) (λ _, 1)); [|done|done|done].
    rewrite total_zero by done. rewrite (total_const (1 + 1)). lia.
  - rewrite (total_fold wins
               (λ m, if bool_decide (toNumber (m_homeSets m)
                                     > toNumber (m_awaySets m)) then 1 else 0)
               (λ m, if bool_decide (toNumber (m_awaySets m)
                                     > toNumber (m_homeSets m)) then 1 else 0));
      [ | intros m r; simpl; case_bool_decide; lia
        | intros m r; simpl; case_bool_decide; lia | done ].
    rewrite total_zero by done. rewrite <- Hdec. simpl. apply total_ext.
    intros m. unfold decided.
    repeat case_bool_decide; case_decide; lia.
  - rewrite <- total_plus.
    rewrite (total_fold (λ r, wins r + losses r) (λ _, 1) (λ _, 1));
      [ | intros m r; simpl; case_bool_decide; lia
        | intros m r; simpl; case_bool_decide; lia | done ].
    rewrite total_zero by done. rewrite (total_const (1 + 1)). lia.
  - rewrite (total_fold points
               (λ m, if bool_decide (toNumber (m_homeSets m)
                                     > toNumber (m_awaySets m)) then 2 else 1)
               (λ m, if bool_decide (toNumber (m_awaySets m)
                                     > toNumber (m_homeSets m)) then 2 else 1));
      [ | intros m r; simpl; case_bool_decide; lia
        | intros m r; simpl; case_bool_decide; lia | done ].
    rewrite total_zero by done.
    rewrite <- Hdec, <- (total_const 2 counted), <- total_plus. simpl.
    apply total_ext. intros m. unfold decided.
    repeat case_bool_decide; case_decide; lia.
Qed.

Lemma total_app {A} (f : A → Z) l1 l2 :
  total f (l1 ++ l2) = total f l1 + total f l2.
Proof.
  induction l1 as [|x l1 IH]; [done|].
  rewrite <- app_comm_cons, !total_cons, IH. lia.
Qed.

Lemma total_snoc {A} (f : A → Z) l x : total f (l ++ [x]) = total f l + f x.
Proof. rewrite total_app, total_cons. unfold total at 2. simpl. lia. Qed.

Lemma total_alter_lookup (f : Row → Z) (g : Row → Row) st i r :
  st !! i = Some r → total f (alter g i st) = total f st + (f (g r) - f r).
Proof.
  revert i. induction st as [|x st IH]; intros i Hi; [done|].
  destruct i as [|i].
  - injection Hi as ->. change (alter g 0%nat (r :: st)) with (g r :: st).
    rewrite !total_cons. lia.
  - change (alter g (S i) (x :: st)) with (x :: alter g i st).
    rewrite !total_cons, (IH i) by done. lia.
Qed.

(** The sum of a column after one fixture, for rows that satisfy what the
    two updates need in order to add exactly. *)
Lemma total_applyMatch_within (Inv : Row → Prop) (f : Row → Z) δh δa st m :
  Forall Inv st →
  (∀ r, Inv r → f (creditHome m r) = f r + δh) →
  (∀ r, Inv r → f (creditAway m r) = f r + δa) →
  (∀ r, Inv r → f (creditAway m (creditHome m r)) = f r + δh + δa) →
  m_homeParticipantId m ∈ participantId <$> st →
  m_awayParticipantId m ∈ participantId <$> st →
  total f (applyMatch st m) = total f st + δh + δa.
Proof.
  intros Hinv Hh Ha Hboth Hin_h Hin_a. unfold applyMatch.
  destruct (findRef_elem _ _ Hin_h) as (i & -> & Hi).
  destruct (findRef_elem _ _ Hin_a) as (j & -> & Hj). simpl.
  destruct (lookup_lt_is_Some_2 st i Hi) as [ri Hri].
  destruct (lookup_lt_is_Some_2 st j Hj) as [rj Hrj].
  pose proof (Forall_lookup_1 _ _ _ _ Hinv Hri) as Hinv_i.
  pose proof (Forall_lookup_1 _ _ _ _ Hinv Hrj) as Hinv_j.
  destruct (decide (i = j)) as [->|Hij].
  - assert (ri = rj) as -> by congruence.
    rewrite (total_alter_lookup f _ _ j (creditHome m rj))
      by (by rewrite list_lookup_alter_eq, Hrj).
    rewrite (total_alter_lookup f _ _ j rj) by done.
    rewrite Hboth, Hh by done. lia.
  - rewrite (total_alter_lookup f _ _ j rj)
      by (by rewrite list_lookup_alter_ne).
    rewrite (total_alter_lookup f _ _ i ri) by done.
    rewrite Ha, Hh by done. lia.
Qed.

Lemma credits_within W m r :
  withinRange W r → W + setsPlayed m ≤ 2 ^ 53 →
  creditHome m r
  = specCredit (scoreOf (m_homeSets m)) (scoreOf (m_awaySets m)) r
  ∧ creditAway m r
    = specCredit (scoreOf (m_awaySets m)) (scoreOf (m_homeSets m)) r
  ∧ creditAway m (creditHome m r)
    = specCredit (scoreOf (m_awaySets m)) (scoreOf (m_homeSets m))
        (specCredit (scoreOf (m_homeSets m)) (scoreOf (m_awaySets m)) r).
Proof.
  unfold withinRange, setsPlayed. intros (Hfor & Hagainst & _) HW.
  split_and!.
  - apply creditHome_spec; lia.
  - apply creditAway_spec; lia.
  - rewrite creditHome_spec by lia. apply creditAway_spec; simpl; lia.
Qed.

(** Inside the range the sets won and the sets lost of a table both add up
    to the sets of the counted fixtures. *)
Lemma tallied_sets_totals ids ms :
  safeScores ms →
  Forall (λ m, m_homeParticipantId m ∈ ids ∧ m_awayParticipantId m ∈ ids) ms →
  total setsFor (tallied ids ms)
  = total (λ m, scoreOf (m_homeSets m) + scoreOf (m_awaySets m)) ms
  ∧ total setsAgainst (tallied ids ms)
    = total (λ m, scoreOf (m_homeSets m) + scoreOf (m_awaySets m)) ms.
Proof.
  induction ms as [|m ms IH] using rev_ind; intros Hsafe Hall.
  - rewrite tallied_nil, !total_zero by done. done.
  - unfold safeScores in Hsafe. rewrite total_snoc in Hsafe.
    pose proof (total_setsPlayed_nonneg ms) as Hpos.
    assert (0 ≤ setsPlayed m) as Hm by (unfold setsPlayed; lia).
    assert (safeScores ms) as Hsafe' by (unfold safeScores; lia).
    apply Forall_app in Hall as [Hall [[Hhome Haway] _]%Forall_cons].
    destruct (IH Hsafe' Hall) as [IHfor IHagainst].
    destruct (tallied_spec ids ms Hsafe') as [_ Hrange].
    assert (total setsPlayed ms + setsPlayed m ≤ 2 ^ 53) as HW by lia.
    rewrite <- applyMatch_tallied, !total_snoc.
    rewrite (total_applyMatch_within (withinRange (total setsPlayed ms))
               setsFor (scoreOf (m_homeSets m)) (scoreOf (m_awaySets m)));
      [ | done
        | intros r Hr; by destruct (credits_within _ m r Hr HW) as (-> & _ & _)
        | intros r Hr; by destruct (credits_within _ m r Hr HW) as (_ & -> & _)
        | intros r Hr; destruct (credits_within _ m r Hr HW) as (_ & _ & ->);
          simpl; lia
        | by rewrite tallied_ids | by rewrite tallied_ids ].
    rewrite (total_applyMatch_within (withinRange (total setsPlayed ms))
               setsAgainst (scoreOf (m_awaySets m)) (scoreOf (m_homeSets m)));
      [ | done
        | intros r Hr; by destruct (credits_within _ m r Hr HW) as (-> & _ & _)
        | intros r Hr; by destruct (credits_within _ m r Hr HW) as (_ & -> & _)
        | intros r Hr; destruct (credits_within _ m r Hr HW) as (_ & _ & ->);
          simpl; lia
        | by rewrite tallied_ids | by rewrite tallied_ids ].
    rewrite IHfor, IHagainst. lia.
Qed.

Lemma table_total f group ms gn :
  (∀ r, f (setDiff r) = f r) →
  total f (standingsTable group ms gn) = total f (foldedStandings group ms gn).
Proof.
  intros Hf. rewrite (total_perm f _ _ (standingsTable_perm group ms gn)).
  by apply total_fmap_same.
Qed.

Lemma sortBy_fixed {A} (cmp : A → A → Z) (l : list A) :
  (∀ x y, x ∈ l → y ∈ l → ¬ 0 < cmp x y) → sortBy cmp l = l.
Proof.
  induction l as [|x l IH]; intros Hcmp; [done|].
  simpl. rewrite IH.
  - destruct l as [|y l]; [done|]. simpl.
    rewrite decide_False; [done|].
    apply Hcmp; [left|right; left].
  - intros a b Ha Hb. apply Hcmp; by right.
Qed.

Lemma standingsTable_no_results group ms gn :
  groupMatches ms gn = [] →
  standingsTable group ms gn = newRow <$> g_participantIds group.
Proof.
  intros Hnone. unfold standingsTable, foldedStandings. rewrite Hnone. simpl.
  rewrite <- list_fmap_compose.
  rewrite sortBy_fixed.
  - by apply list_fmap_ext.
  - intros x y (p & -> & _)%list_elem_of_fmap (q & -> & _)%list_elem_of_fmap.
    by compute.
Qed.

Lemma groupMatches_pending ms gn :
  Forall (λ m, m_status m = "pending") ms → groupMatches ms gn = [].
Proof.
  intros Hall. unfold groupMatches.
  induction Hall as [|m ms Hm _ IH]; [done|].
  rewrite filter_cons, decide_False; [done|].
  unfold isGroupMatch. rewrite Hm. by intros [_ ?].
Qed.

Lemma handleGenerateMatches_pending pm champ :
  Forall (λ m, m_status m = "pending") (handleGenerateMatches pm champ).
Proof.
  unfold handleGenerateMatches. apply Forall_bind, Forall_forall.
  intros group _. unfold compose.
  eapply Forall_impl; [apply groupFixtures_pending|].
  by intros m ([? _] & _).
Qed.

Lemma upsert_upsert st gn t1 t2 :
  upsertStandings (upsertStandings st gn t1) gn t2 = upsertStandings st gn t2.
Proof.
  unfold upsertStandings.
  rewrite filter_app, filter_cons, decide_False by (simpl; tauto).
  rewrite filter_nil, app_nil_r, list_filter_filter.
  f_equal. apply list_filter_iff. tauto.
Qed.

(** ** Extras on the standings *)

(** X1: while the sets of the counted fixtures add up to no more than
    [2^53], the table does not depend on the order in which the fixtures are
    held in [updatedMatches].  (Beyond that the sums are rounded as they
    grow, and the order shows: see [large_scores_order].) *)
Theorem standings_order_independent (group : Group)
    (updatedMatches reordered : list Match) (groupName : string) :
  safeScores (groupMatches updatedMatches groupName) →
  updatedMatches ≡ₚ reordered →
  standingsTable group updatedMatches groupName
  = standingsTable group reordered groupName.
Proof.
  intros Hsafe Hp. unfold standingsTable.
  rewrite !foldedStandings_tallied. do 2 f_equal.
  unfold tallied. apply imap_ext. intros i pid _.
  case_decide; [done|]. apply tally_perm; [done|].
  unfold groupMatches. by rewrite Hp.
Qed.

Lemma standings_order_independent_witness :
  standingsTable scenarioGroup scenarioMatches "Grupo A"
  = standingsTable scenarioGroup (rev scenarioMatches) "Grupo A".
Proof.
  apply standings_order_independent; [|apply Permutation_rev].
  apply (bool_decide_unpack _). vm_compute. exact I.
Defined.

(** With a score above [2^53] between two scores of 1, the handler's sum is
    [2^53] when the large score comes second and [2^53 + 2] when it comes
    last. *)
Example large_scores_order :
  setsFor <$> standingsTable scenarioGroup
                [ completedMatch "Grupo A" "A" "B" 1 0;
                  completedMatch "Grupo A" "A" "B" (2 ^ 53) 0;
                  completedMatch "Grupo A" "A" "B" 1 0 ] "Grupo A"
  = [2 ^ 53; 0; 0]
  ∧ setsFor <$> standingsTable scenarioGroup
                  [ completedMatch "Grupo A" "A" "B" 1 0;
                    completedMatch "Grupo A" "A" "B" 1 0;
                    completedMatch "Grupo A" "A" "B" (2 ^ 53) 0 ] "Grupo A"
    = [2 ^ 53 + 2; 0; 0].
Proof. split; vm_compute; reflexivity. Qed.

(** X2: when every counted fixture is between participants of the group,
    and the sets of the counted fixtures add up to no more than [2^53], the
    table counts two games per fixture, as many wins and losses together as
    games, as many sets won as sets lost, namely the sets of the counted
    fixtures, and its set differences add up to zero. *)
Theorem standings_conservation (group : Group) (updatedMatches : list Match)
    (groupName : string) :
  Forall (bothInGroup group) (groupMatches updatedMatches groupName) →
  safeScores (groupMatches updatedMatches groupName) →
  total played (standingsTable group updatedMatches groupName)
  = 2 * Z.of_nat (length (groupMatches updatedMatches groupName))
  ∧ total wins (standingsTable group updatedMatches groupName)
    + total losses (standingsTable group updatedMatches groupName)
    = 2 * Z.of_nat (length (groupMatches updatedMatches groupName))
  ∧ total setsFor (standingsTable group updatedMatches groupName)
    = total (λ m, scoreOf (m_homeSets m) + scoreOf (m_awaySets m))
            (groupMatches updatedMatches groupName)
  ∧ total setsAgainst (standingsTable group updatedMatches groupName)
    = total (λ m, scoreOf (m_homeSets m) + scoreOf (m_awaySets m))
            (groupMatches updatedMatches groupName)
  ∧ total setDifference (standingsTable group updatedMatches groupName) = 0.
Proof.
  intros Hall Hsafe.
  destruct (folded_totals group updatedMatches groupName Hall)
    as (Hpl & _ & Hwl & _).
  destruct (tallied_sets_totals (g_participantIds group) _ Hsafe Hall)
    as [Hfor Hagainst].
  rewrite <- foldedStandings_tallied in Hfor, Hagainst.
  rewrite !table_total by done. split_and!; try done.
  rewrite (total_perm _ _ _ (standingsTable_perm group updatedMatches groupName)).
  rewrite setDiff_folded_spec by done.
  assert (∀ l, total setDifference (specDifference <$> l)
               = total setsFor l - total setsAgainst l) as ->.
  { intros l. induction l as [|r l IH]; [done|].
    rewrite fmap_cons, !total_cons, IH. simpl. lia. }
  lia.
Qed.

Lemma standings_conservation_witness :
  total played (standingsTable scenarioGroup scenarioMatches "Grupo A") = 6
  ∧ total setDifference (standingsTable scenarioGroup scenarioMatches "Grupo A")
    = 0.
Proof.
  assert (Forall (bothInGroup scenarioGroup)
            (groupMatches scenarioMatches "Grupo A")) as Hall
    by (apply (bool_decide_unpack _); vm_compute; exact I).
  assert (safeScores (groupMatches scenarioMatches "Grupo A")) as Hsafe
    by (apply (bool_decide_unpack _); vm_compute; exact I).
  destruct (standings_conservation scenarioGroup scenarioMatches "Grupo A"
              Hall Hsafe) as (Hpl & _ & _ & _ & Hsd).
  split; [exact Hpl|exact Hsd].
Defined.

(** Beyond the range the columns drift apart: after A beat B by [2^53] sets
    to none and C by one set to none, the sets won of the table add up to
    [2^53] and the sets lost to [2^53 + 1]. *)
Example large_scores_totals :
  total setsFor
    (standingsTable scenarioGroup
       [ completedMatch "Grupo A" "A" "B" (2 ^ 53) 0;
         completedMatch "Grupo A" "A" "C" 1 0 ] "Grupo A") = 2 ^ 53
  ∧ total setsAgainst
      (standingsTable scenarioGroup
         [ completedMatch "Grupo A" "A" "B" (2 ^ 53) 0;
           completedMatch "Grupo A" "A" "C" 1 0 ] "Grupo A") = 2 ^ 53 + 1.
Proof. split; vm_compute; reflexivity. Qed.

(** X3: under the same condition the wins of the table are as many as the
    counted fixtures with unequal scores, and the points are three for each
    of those and two for each fixture with equal scores. *)
Theorem standings_points_total (group : Group) (updatedMatches : list Match)
    (groupName : string) :
  Forall (bothInGroup group) (groupMatches updatedMatches groupName) →
  total wins (standingsTable group updatedMatches groupName)
  = Z.of_nat (length (filter decided (groupMatches updatedMatches groupName)))
  ∧ total points (standingsTable group updatedMatches groupName)
    = 3 * Z.of_nat (length (filter decided
                              (groupMatches updatedMatches groupName)))
      + 2 * (Z.of_nat (length (groupMatches updatedMatches groupName))
             - Z.of_nat (length (filter decided
                                   (groupMatches updatedMatches groupName)))).
Proof.
  intros Hall.
  destruct (folded_totals group updatedMatches groupName Hall)
    as (_ & Hw & _ & Hpt).
  rewrite !table_total by done. split; [done|]. lia.
Qed.

Lemma standings_points_total_witness :
  total points (standingsTable scenarioGroup scenarioMatches "Grupo A") = 9.
Proof.
  assert (Forall (bothInGroup scenarioGroup)
            (groupMatches scenarioMatches "Grupo A")) as Hall
    by (apply (bool_decide_unpack _); vm_compute; exact I).
  exact (proj2 (standings_points_total scenarioGroup scenarioMatches
                  "Grupo A" Hall)).
Defined.

(** X4: with no completed fixture of the group among the matches, the table
    is the rows of the members, all counters zero, in membership order. *)
Theorem standings_without_results (group : Group) (updatedMatches : list Match)
    (groupName : string) :
  groupMatches updatedMatches groupName = [] →
  standingsTable group updatedMatches groupName
  = newRow <$> g_participantIds group.
Proof. apply standingsTable_no_results. Qed.

Lemma standings_without_results_witness :
  standingsTable scenarioGroup scenarioMatches "Grupo B"
  = newRow <$> g_participantIds scenarioGroup.
Proof.
  apply standings_without_results. reflexivity.
Defined.

Lemma handleGenerateGroups_accepted champ participants shuffled :
  (handleGenerateGroups champ participants shuffled).1 = None →
  (2 ≤ length participants)%nat
  ∧ 1 ≤ numGroups (c_groupStage champ)
  ∧ c_groups (handleGenerateGroups champ participants shuffled).2
    = striped (Z.to_nat (numGroups (c_groupStage champ))) (p_id <$> shuffled)
  ∧ c_standings (handleGenerateGroups champ participants shuffled).2
    = initialStandings
        (striped (Z.to_nat (numGroups (c_groupStage champ))) (p_id <$> shuffled)).
Proof.
  unfold handleGenerateGroups. case_decide as Hg; [done|].
  destruct (decide (numGroups (c_groupStage champ) < 2 ^ 32)) as [Hlimit|Hlimit].
  - rewrite distribute_striped by lia. intros _. simpl.
    split_and!; try done; lia.
  - by rewrite distribute_limit by lia.
Qed.

Lemma rangeError_not_alert : rangeError ≠ groupsAlert.
Proof. unfold rangeError, groupsAlert. discriminate. Qed.

(** What ends the call early when there are two participants or more. *)
Lemma generate_guard_cases champ participants shuffled :
  (2 ≤ length participants)%nat →
  ((handleGenerateGroups champ participants shuffled).1 = Some groupsAlert
   ↔ numGroups (c_groupStage champ) < 1)
  ∧ ((handleGenerateGroups champ participants shuffled).1 = Some rangeError
     ↔ 2 ^ 32 ≤ numGroups (c_groupStage champ)).
Proof.
  intros Hn. unfold handleGenerateGroups. case_decide as Hguard.
  - simpl. split; split; try lia; done.
  - destruct (decide (numGroups (c_groupStage champ) < 2 ^ 32)) as [Hlimit|Hlimit].
    + rewrite distribute_striped by lia. simpl. split; split; try done; lia.
    + rewrite distribute_limit by lia. simpl. split; split; try done; lia.
Qed.

Lemma groupLabel_not_manual k : groupLabel k ≠ "Avulso".
Proof. unfold groupLabel. simpl. discriminate. Qed.

Lemma striped_names g l G : G ∈ striped g l → ∃ k, g_name G = groupLabel k.
Proof.
  unfold striped. intros (k & -> & _)%list_elem_of_fmap. by exists k.
Qed.

Lemma standingsTable_skip group ms1 m ms2 gn :
  ¬ isGroupMatch gn m →
  standingsTable group (ms1 ++ m :: ms2) gn = standingsTable group (ms1 ++ ms2) gn.
Proof.
  intros Hm. unfold standingsTable, foldedStandings, groupMatches.
  by rewrite !filter_app, filter_cons, decide_False.
Qed.

(** X5: right after the groups and then the matches have been generated, a
    recomputation of any group gives back the table that the generation of
    the groups stored for it. *)
Theorem fresh_schedule_keeps_initial_tables
    (participantMap : gmap string Participant) (champ : Championship)
    (participants shuffled : list Participant) (k : nat) (G : Group) :
  (handleGenerateGroups champ participants shuffled).1 = None →
  c_groups (handleGenerateGroups champ participants shuffled).2 !! k = Some G →
  c_standings (handleGenerateGroups champ participants shuffled).2 !! k
  = Some {| s_groupName := g_name G;
            s_table :=
              standingsTable G
                (handleGenerateMatches participantMap
                   (handleGenerateGroups champ participants shuffled).2)
                (g_name G) |}.
Proof.
  intros Hok HG.
  destruct (handleGenerateGroups_accepted _ _ _ Hok) as (_ & _ & Hgroups & Hst).
  rewrite Hst. rewrite Hgroups in HG.
  unfold initialStandings. rewrite list_lookup_fmap, HG. simpl.
  rewrite standingsTable_no_results; [done|].
  apply groupMatches_pending, handleGenerateMatches_pending.
Qed.

Lemma fresh_schedule_keeps_initial_tables_witness :
  c_standings (handleGenerateGroups scenarioChampionship sampleParticipants
                 sampleShuffled).2 !! 1%nat
  = Some {| s_groupName := "Grupo B";
            s_table :=
              standingsTable
                {| g_name := "Grupo B"; g_participantIds := ["C"; "E"] |}
                (handleGenerateMatches sampleMap
                   (handleGenerateGroups scenarioChampionship sampleParticipants
                      sampleShuffled).2)
                "Grupo B" |}.
Proof.
  apply (fresh_schedule_keeps_initial_tables sampleMap scenarioChampionship
           sampleParticipants sampleShuffled 1%nat
           {| g_name := "Grupo B"; g_participantIds := ["C"; "E"] |});
    reflexivity.
Defined.

(** X6: a recomputation overrides any earlier recomputation of the same
    group: only the last one shows in the result. *)
Theorem recalculation_overrides (champ : Championship)
    (earlier later : list Match) (groupName : string) :
  handleRecalculateStandings
    (handleRecalculateStandings champ earlier groupName) later groupName
  = handleRecalculateStandings champ later groupName.
Proof.
  unfold handleRecalculateStandings.
  destruct (list_find _ (c_groups champ)) as [[i group]|] eqn:Hfind.
  - simpl. rewrite Hfind. unfold setStandings. simpl.
    by rewrite upsert_upsert.
  - by rewrite Hfind.
Qed.

(** X7: a fixture that is not completed, or that belongs to another group,
    can be added to or taken from the matches without changing the table. *)
Theorem uncounted_fixture_ignored (group : Group) (before after : list Match)
    (m : Match) (groupName : string) :
  m_groupName m ≠ groupName ∨ m_status m ≠ "completed" →
  standingsTable group (before ++ m :: after) groupName
  = standingsTable group (before ++ after) groupName.
Proof.
  intros Hm. apply standingsTable_skip. unfold isGroupMatch. tauto.
Qed.

Lemma uncounted_fixture_ignored_witness :
  standingsTable scenarioGroup
    ([] ++ completedMatch "Grupo B" "A" "B" 3 0 :: scenarioMatches) "Grupo A"
  = standingsTable scenarioGroup ([] ++ scenarioMatches) "Grupo A".
Proof.
  apply uncounted_fixture_ignored. left. discriminate.
Defined.

(** X8: a manual fixture never counts for a generated group, with or without
    a score: the generated groups are named "Grupo ...", the manual fixture
    "Avulso"; and the recomputation that follows the saving of its score
    changes nothing. *)
Theorem manual_fixture_never_counts
    (participantMap : gmap string Participant) (d : ManualMatchData)
    (m : Match) (champ : Championship)
    (participants shuffled : list Participant) :
  handleSaveManualMatch participantMap d = inr m →
  (handleGenerateGroups champ participants shuffled).1 = None →
  (∀ G before after parsedHome parsedAway,
     G ∈ c_groups (handleGenerateGroups champ participants shuffled).2 →
     standingsTable G (before ++ m :: after) (g_name G)
     = standingsTable G (before ++ after) (g_name G)
     ∧ standingsTable G
         (before ++ withScore parsedHome parsedAway m :: after) (g_name G)
       = standingsTable G (before ++ after) (g_name G))
  ∧ (∀ updatedMatches,
       handleRecalculateStandings
         (handleGenerateGroups champ participants shuffled).2
         updatedMatches (m_groupName m)
       = (handleGenerateGroups champ participants shuffled).2).
Proof.
  intros Hm Hok.
  destruct (handleGenerateGroups_accepted _ _ _ Hok) as (_ & _ & Hgroups & _).
  assert (m_groupName m = "Avulso") as Hname.
  { revert Hm. unfold handleSaveManualMatch. case_decide; [done|].
    by intros [= <-]. }
  rewrite Hgroups. split.
  - intros G before after h a HG.
    apply striped_names in HG as [k Hk].
    pose proof (groupLabel_not_manual k) as Hne.
    split; apply standingsTable_skip; unfold isGroupMatch; simpl;
      rewrite Hname, Hk; by intros [? _].
  - intros ms. unfold handleRecalculateStandings. rewrite Hgroups.
    destruct (list_find _ _) as [[i G]|] eqn:Hfind; [|done].
    apply list_find_Some in Hfind as (Hi & HG & _).
    apply list_elem_of_lookup_2, striped_names in Hi as [k Hk].
    rewrite Hname, Hk in HG. by destruct (groupLabel_not_manual k).
Qed.

Lemma manual_fixture_never_counts_witness :
  handleRecalculateStandings
    (handleGenerateGroups scenarioChampionship sampleParticipants
       sampleShuffled).2
    scenarioMatches "Avulso"
  = (handleGenerateGroups scenarioChampionship sampleParticipants
       sampleShuffled).2.
Proof.
  exact (proj2 (manual_fixture_never_counts sampleMap
                  {| homeParticipantId := "A"; awayParticipantId := "B" |}
                  _ scenarioChampionship sampleParticipants sampleShuffled
                  eq_refl eq_refl) scenarioMatches).
Defined.

(** ** Extras on the schedule *)

Lemma filter_all {A} (P : A → Prop) `{∀ x, Decision (P x)} (l : list A) :
  Forall P l → filter P l = l.
Proof.
  induction 1 as [|x l Hx _ IH]; [done|].
  by rewrite filter_cons, decide_True, IH.
Qed.

Lemma filter_none {A} (P : A → Prop) `{∀ x, Decision (P x)} (l : list A) :
  Forall (λ x, ¬ P x) l → filter P l = [].
Proof.
  induction 1 as [|x l Hx _ IH]; [done|].
  by rewrite filter_cons, decide_False, IH.
Qed.

Lemma length_filter_or {A} (P Q : A → Prop) `{∀ x, Decision (P x)}
    `{∀ x, Decision (Q x)} (l : list A) :
  Forall (λ x, ¬ (P x ∧ Q x)) l →
  length (filter (λ x, P x ∨ Q x) l)
  = (length (filter P l) + length (filter Q l))%nat.
Proof.
  induction 1 as [|x l Hx _ IH]; [done|].
  rewrite !filter_cons.
  destruct (decide (P x)), (decide (Q x));
    [tauto|rewrite decide_True by tauto|rewrite decide_True by tauto
    |rewrite decide_False by tauto]; simpl; lia.
Qed.

Lemma orderedPairs_outside p l :
  p ∉ l →
  filter (λ pr : string * string, pr.1 = p) (orderedPairs l) = []
  ∧ filter (λ pr : string * string, pr.2 = p) (orderedPairs l) = [].
Proof.
  intros Hp. split; apply filter_none, Forall_forall;
    intros [a b] [Ha Hb]%orderedPairs_elem; simpl; congruence.
Qed.

Lemma orderedPairs_degree p l :
  NoDup l → p ∈ l →
  (length (filter (λ pr : string * string, pr.1 = p) (orderedPairs l))
   + length (filter (λ pr : string * string, pr.2 = p) (orderedPairs l))
   = length l - 1)%nat.
Proof.
  induction 1 as [|x l Hx Hnd IH]; [by intros ?%elem_of_nil|].
  intros Hp. cbn [orderedPairs]. rewrite !filter_app, !length_app.
  assert (length (filter (λ pr : string * string, pr.2 = p) (pair x <$> l))
          = length (filter (λ y, y = p) l)) as Hsnd.
  { symmetry. exact (filter_fmap_length (pair x) (λ pr, pr.2 = p) l). }
  rewrite Hsnd. simpl length.
  destruct (decide (x = p)) as [->|Hne].
  - destruct (orderedPairs_outside p l Hx) as [-> ->].
    rewrite (filter_all (λ pr : string * string, pr.1 = p))
      by (apply Forall_forall; by intros pr (y & -> & _)%list_elem_of_fmap).
    rewrite (filter_none (λ y, y = p))
      by (apply Forall_forall; intros y Hy ->; done).
    rewrite length_fmap. simpl. lia.
  - apply elem_of_cons in Hp as [Hp|Hp]; [congruence|].
    rewrite (filter_none (λ pr : string * string, pr.1 = p))
      by (apply Forall_forall; by intros pr (y & -> & _)%list_elem_of_fmap).
    rewrite (filter_length_one (λ y, y = p) l p) by (auto; congruence).
    specialize (IH Hp).
    assert (0 < length l)%nat
      by (destruct l; [by apply elem_of_nil in Hp|simpl; lia]).
    simpl. lia.
Qed.

Lemma schedule_return_count (P : string * string → Prop)
    `{∀ x, Decision (P x)} (l : list (string * string)) :
  length (filter P (p ← l; [p; (p.2, p.1)]))
  = (length (filter P l) + length (filter (λ p, P (p.2, p.1)) l))%nat.
Proof.
  induction l as [|[a b] l IH]; [done|].
  rewrite bind_cons, filter_app, length_app, IH, !(filter_cons _ (a, b) l).
  simpl. rewrite !filter_cons, filter_nil.
  repeat case_decide; simpl; lia.
Qed.

(** X9: in a group of [n] participants with pairwise distinct ids, every
    participant plays [n - 1] fixtures in the single format, and in the
    home-and-away format [n - 1] at home and [n - 1] away. *)
Theorem every_participant_meets_all (participantMap : gmap string Participant)
    (group : Group) (p : string) :
  NoDup (g_participantIds group) → p ∈ g_participantIds group →
  length (filter (involves p) (groupFixtures participantMap "single" group))
  = (length (g_participantIds group) - 1)%nat
  ∧ length (filter (λ m, m_homeParticipantId m = p)
                   (groupFixtures participantMap "home_and_away" group))
    = (length (g_participantIds group) - 1)%nat
  ∧ length (filter (λ m, m_awayParticipantId m = p)
                   (groupFixtures participantMap "home_and_away" group))
    = (length (g_participantIds group) - 1)%nat.
Proof.
  intros Hnd Hp. pose proof (orderedPairs_degree p _ Hnd Hp) as Hdeg.
  split_and!.
  - etrans; [exact (filter_fmap_length sides
                      (λ pr : string * string, pr.1 = p ∨ pr.2 = p) _)|].
    rewrite groupFixtures_sides, schedule_single.
    rewrite length_filter_or; [exact Hdeg|].
    apply Forall_forall. intros [a b] Hab [Ha Hb]. simpl in *. subst.
    by apply orderedPairs_irrefl in Hab.
  - etrans; [exact (filter_fmap_length sides
                      (λ pr : string * string, pr.1 = p) _)|].
    rewrite groupFixtures_sides. unfold schedule.
    destruct (decide ("home_and_away" = "home_and_away")) as [_|?]; [|done].
    rewrite schedule_return_count. exact Hdeg.
  - etrans; [exact (filter_fmap_length sides
                      (λ pr : string * string, pr.2 = p) _)|].
    rewrite groupFixtures_sides. unfold schedule.
    destruct (decide ("home_and_away" = "home_and_away")) as [_|?]; [|done].
    rewrite schedule_return_count. simpl. lia.
Qed.

Lemma every_participant_meets_all_witness :
  length (filter (involves "B") (groupFixtures ∅ "single" scenarioGroup))
  = 2%nat.
Proof.
  assert (NoDup (g_participantIds scenarioGroup)) as Hnd
    by (apply (bool_decide_unpack _); vm_compute; exact I).
  assert ("B" ∈ g_participantIds scenarioGroup) as Hin
    by (apply (bool_decide_unpack _); vm_compute; exact I).
  exact (proj1 (every_participant_meets_all ∅ scenarioGroup "B" Hnd Hin)).
Defined.

(** X10: when the groups have pairwise distinct names, the fixtures of the
    batch that carry the name of a group are exactly the fixtures generated
    for that group, in their order. *)
Theorem batch_fixtures_by_group (participantMap : gmap string Participant)
    (champ : Championship) (G : Group) :
  NoDup (g_name <$> c_groups champ) → G ∈ c_groups champ →
  filter (λ m, m_groupName m = g_name G)
         (handleGenerateMatches participantMap champ)
  = groupFixtures participantMap (matchFormat (c_groupStage champ)) G.
Proof.
  unfold handleGenerateMatches.
  generalize (matchFormat (c_groupStage champ)) as format.
  generalize (c_groups champ) as groups. intros groups format.
  intros Hnd HG.
  assert (∀ G', filter (λ m, m_groupName m = g_name G')
                       (groupFixtures participantMap format G')
                = groupFixtures participantMap format G') as Hsame.
  { intros G'. apply filter_all.
    eapply Forall_impl; [apply groupFixtures_pending|]. by intros m (_ & ? & _). }
  assert (∀ G', g_name G' ≠ g_name G →
                filter (λ m, m_groupName m = g_name G)
                       (groupFixtures participantMap format G') = []) as Hother.
  { intros G' Hne. apply filter_none.
    eapply Forall_impl; [apply groupFixtures_pending|].
    intros m (_ & Hm & _). congruence. }
  induction groups as [|G1 groups IH]; [by apply elem_of_nil in HG|].
  rewrite fmap_cons in Hnd. apply NoDup_cons in Hnd as [Hfresh Hnd].
  rewrite bind_cons, filter_app.
  apply elem_of_cons in HG as [->|HG].
  - rewrite Hsame.
    rewrite (filter_none _ (groups ≫= _)); [by rewrite app_nil_r|].
    apply Forall_bind, Forall_forall. intros G' HG'. unfold compose.
    eapply Forall_impl; [apply groupFixtures_pending|].
    intros m (_ & Hm & _). rewrite Hm. intros Heq.
    apply Hfresh. rewrite <- Heq. by apply list_elem_of_fmap_2.
  - rewrite Hother, IH by
      (try done; intros Heq; apply Hfresh; rewrite Heq;
       by apply list_elem_of_fmap_2).
    done.
Qed.

Lemma batch_fixtures_by_group_witness :
  sides <$> filter (λ m, m_groupName m = "Grupo A")
                   (handleGenerateMatches sampleMap scenarioChampionship)
  = [("A", "B"); ("A", "C"); ("B", "C")].
Proof.
  assert (NoDup (g_name <$> c_groups scenarioChampionship)) as Hnd
    by (apply (bool_decide_unpack _); vm_compute; exact I).
  assert (scenarioGroup ∈ c_groups scenarioChampionship) as Hin
    by (apply (bool_decide_unpack _); vm_compute; exact I).
  pose proof (batch_fixtures_by_group sampleMap scenarioChampionship
                scenarioGroup Hnd Hin) as H.
  simpl g_name in H. rewrite H. reflexivity.
Defined.

(** ** Extras on the groups *)

Lemma stripe_small g k l :
  (length l ≤ g)%nat → (k < g)%nat →
  stripe g k l = option_list (l !! k).
Proof.
  intros Hlen Hk. induction l as [|x l IH] using rev_ind; [done|].
  rewrite length_app in Hlen. simpl in Hlen.
  rewrite stripe_snoc, IH by lia.
  rewrite Nat.mod_small by lia.
  destruct (decide (length l = k)) as [<-|Hne].
  - rewrite lookup_ge_None_2 by lia.
    by rewrite list_lookup_middle.
  - rewrite app_nil_r.
    destruct (decide (k < length l)%nat).
    + by rewrite lookup_app_l by lia.
    + rewrite !lookup_ge_None_2; [done| |lia].
      rewrite length_app. simpl. lia.
Qed.

Lemma groupFixtures_few pm format group :
  (length (g_participantIds group) ≤ 1)%nat →
  groupFixtures pm format group = [].
Proof.
  intros Hlen. rewrite groupFixtures_pairs.
  destruct (g_participantIds group) as [|x [|y l]]; [done|done|].
  simpl in Hlen. lia.
Qed.

Lemma bind_all_nil {A B} (f : A → list B) (l : list A) :
  (∀ x, x ∈ l → f x = []) → l ≫= f = [].
Proof.
  induction l as [|x l IH]; intros Hf; [done|].
  rewrite bind_cons, Hf, IH; [done| |left].
  intros y Hy. apply Hf. by right.
Qed.

(** X11: with at least as many groups as participants, and fewer than the
    [2^32] at which the array of groups cannot be created, the call ends
    with the write, the first [n] groups get one participant each, in the
    order of the shuffle, the other groups stay empty, and the generation of
    the matches then yields no fixture. *)
Theorem groups_not_fewer_than_participants
    (participantMap : gmap string Participant) (champ : Championship)
    (participants shuffled : list Participant) :
  (2 ≤ length participants)%nat →
  Z.of_nat (length participants) ≤ numGroups (c_groupStage champ) →
  numGroups (c_groupStage champ) < 2 ^ 32 →
  shuffled ≡ₚ participants →
  (handleGenerateGroups champ participants shuffled).1 = None
  ∧ length (c_groups (handleGenerateGroups champ participants shuffled).2)
    = Z.to_nat (numGroups (c_groupStage champ))
  ∧ (∀ k, (k < Z.to_nat (numGroups (c_groupStage champ)))%nat →
     g_participantIds
       <$> c_groups (handleGenerateGroups champ participants shuffled).2 !! k
     = Some (option_list (p_id <$> shuffled !! k)))
  ∧ handleGenerateMatches participantMap
      (handleGenerateGroups champ participants shuffled).2 = [].
Proof.
  intros Hn Hg Hlimit Hperm.
  assert (length shuffled = length participants) as Hlen by by rewrite Hperm.
  destruct (handleGenerateGroups_groups champ participants shuffled Hn)
    as [Hdone Hgroups]; [lia|done|].
  assert (∀ k, (k < Z.to_nat (numGroups (c_groupStage champ)))%nat →
            stripe (Z.to_nat (numGroups (c_groupStage champ))) k
                   (p_id <$> shuffled)
            = option_list (p_id <$> shuffled !! k)) as Hstripe.
  { intros k Hk. rewrite stripe_small, list_lookup_fmap; [done| |done].
    rewrite length_fmap. lia. }
  split_and!.
  - exact Hdone.
  - rewrite Hgroups. apply striped_length.
  - intros k Hk. rewrite Hgroups, striped_lookup by done. simpl.
    by rewrite Hstripe.
  - unfold handleGenerateMatches. rewrite Hgroups.
    apply bind_all_nil. intros G [k HG]%list_elem_of_lookup.
    apply striped_lookup_inv in HG as [Hk HG].
    apply groupFixtures_few. rewrite HG, Hstripe by done.
    destruct (p_id <$> shuffled !! k); simpl; lia.
Qed.

Lemma groups_not_fewer_than_participants_witness :
  handleGenerateMatches sampleMap
    (handleGenerateGroups manyGroupsChampionship sampleParticipants
       sampleShuffled).2 = [].
Proof.
  assert (2 ≤ length sampleParticipants)%nat as Hn by (simpl; lia).
  assert (Z.of_nat (length sampleParticipants)
          ≤ numGroups (c_groupStage manyGroupsChampionship)) as Hg
    by (simpl; lia).
  assert (numGroups (c_groupStage manyGroupsChampionship) < 2 ^ 32) as Hlimit
    by (simpl; lia).
  assert (sampleShuffled ≡ₚ sampleParticipants) as Hperm
    by (symmetry;
        exact (Permutation_cons_append
                 [ mkParticipant "B" "Bia"; mkParticipant "C" "Caio";
                   mkParticipant "D" "Davi"; mkParticipant "E" "Eva" ]
                 (mkParticipant "A" "Ana"))).
  destruct (groups_not_fewer_than_participants sampleMap
              manyGroupsChampionship sampleParticipants sampleShuffled
              Hn Hg Hlimit Hperm) as (_ & _ & _ & Hnone).
  exact Hnone.
Defined.

Lemma participantMapOf_snoc source p :
  participantMapOf (source ++ [p]) = <[p_id p := p]> (participantMapOf source).
Proof. unfold participantMapOf. by rewrite foldl_snoc. Qed.

Lemma participantMapOf_lookup source k :
  participantMapOf source !! k = last (filter (λ p, p_id p = k) source).
Proof.
  induction source as [|p source IH] using rev_ind; [done|].
  rewrite participantMapOf_snoc, filter_app, filter_cons, filter_nil.
  rewrite lookup_insert. destruct (decide (p_id p = k)) as [Hk|Hk].
  - by rewrite last_snoc.
  - by rewrite app_nil_r.
Qed.

Lemma participantMapOf_Some source k p :
  participantMapOf source !! k = Some p → p_id p = k ∧ p ∈ source.
Proof.
  rewrite participantMapOf_lookup. intros [l Hl]%last_Some.
  assert (p ∈ filter (λ p, p_id p = k) source) as Hin
    by (rewrite Hl, elem_of_app, list_elem_of_singleton; auto).
  by apply list_elem_of_filter in Hin.
Qed.

Lemma participantMapOf_is_Some source k :
  is_Some (participantMapOf source !! k) ↔ k ∈ p_id <$> source.
Proof.
  rewrite participantMapOf_lookup. split.
  - intros [p [l Hl]%last_Some].
    assert (p ∈ filter (λ p, p_id p = k) source) as Hin
      by (rewrite Hl, elem_of_app, list_elem_of_singleton; auto).
    apply list_elem_of_filter in Hin as [<- Hin].
    by apply list_elem_of_fmap_2.
  - intros (p & -> & Hp)%list_elem_of_fmap.
    destruct (last (filter (λ q, p_id q = p_id p) source)) eqn:Hlast; [eauto|].
    apply last_None in Hlast.
    assert (p ∈ filter (λ q, p_id q = p_id p) source) as Hin
      by by apply list_elem_of_filter.
    rewrite Hlast in Hin. by apply elem_of_nil in Hin.
Qed.

Lemma participantsOf_ids source champ :
  p_id <$> participantsOf (participantMapOf source) champ
  = filter (λ id, id ∈ p_id <$> source) (c_participantIds champ).
Proof.
  unfold participantsOf.
  induction (c_participantIds champ) as [|id ids IH]; [done|].
  rewrite filter_cons. cbn [omap list_omap].
  destruct (participantMapOf source !! id) as [p|] eqn:Hp.
  - rewrite decide_True
      by (apply participantMapOf_is_Some; by rewrite Hp).
    apply participantMapOf_Some in Hp as [<- _].
    rewrite fmap_cons. f_equal. exact IH.
  - rewrite decide_False; [exact IH|].
    intros Hin%participantMapOf_is_Some. rewrite Hp in Hin.
    by destruct Hin.
Qed.

(** X12: the map of participants returns, for an id, the last player or
    team of the source carrying that id, and nothing for an id that none
    carries; so every entry is stored under its own id. *)
Theorem participant_map_lookup (source : list Participant) (id : string) :
  participantMapOf source !! id = last (filter (λ p, p_id p = id) source)
  ∧ (is_Some (participantMapOf source !! id) ↔ id ∈ p_id <$> source)
  ∧ (∀ p, participantMapOf source !! id = Some p → p_id p = id ∧ p ∈ source).
Proof.
  split_and!.
  - apply participantMapOf_lookup.
  - apply participantMapOf_is_Some.
  - intros p. apply participantMapOf_Some.
Qed.

(** X13: the participants of a championship are those of its ids that some
    player or team of the source still carries, in the order of the
    championship; an id without one drops out silently, and ids that are
    pairwise distinct give participants with pairwise distinct ids. *)
Theorem championship_participants (source : list Participant)
    (champ : Championship) :
  p_id <$> participantsOf (participantMapOf source) champ
  = filter (λ id, id ∈ p_id <$> source) (c_participantIds champ)
  ∧ p_id <$> participantsOf (participantMapOf source) champ
    `sublist_of` c_participantIds champ
  ∧ (NoDup (c_participantIds champ) →
     NoDup (p_id <$> participantsOf (participantMapOf source) champ))
  ∧ (∀ p, p ∈ participantsOf (participantMapOf source) champ → p ∈ source).
Proof.
  split_and!.
  - apply participantsOf_ids.
  - rewrite participantsOf_ids. apply sublist_filter.
  - intros Hnd. rewrite participantsOf_ids. by apply NoDup_filter.
  - intros p. unfold participantsOf. rewrite list_elem_of_omap.
    intros (id & _ & Hp). by apply participantMapOf_Some in Hp as [_ ?].
Qed.

(** X14: for the participants taken from the map, the generation of groups
    is refused exactly when [numGroups] is below one or fewer than two ids
    of the championship are still carried by a player or team. *)
Theorem generation_needs_two_known_ids (source : list Participant)
    (champ : Championship) (shuffled : list Participant) :
  (handleGenerateGroups champ
     (participantsOf (participantMapOf source) champ) shuffled).1
  = Some groupsAlert
  ↔ numGroups (c_groupStage champ) < 1
    ∨ (length (filter (λ id, id ∈ p_id <$> source) (c_participantIds champ))
       < 2)%nat.
Proof.
  rewrite <- participantsOf_ids, length_fmap.
  unfold handleGenerateGroups. case_decide as Hguard; simpl.
  - split; [lia|done].
  - split; [|lia]. destruct (distribute _ _); simpl; [done|].
    intros Heq. destruct rangeError_not_alert. congruence.
Qed.

(** ** Extras on the selections *)

Lemma toggle_filter_other (ids : list string) (id : string) :
  filter (λ x, x ≠ id) (handleParticipantSelection ids id)
  = filter (λ x, x ≠ id) ids.
Proof.
  unfold handleParticipantSelection. case_decide.
  - rewrite list_filter_filter. apply list_filter_iff. tauto.
  - rewrite filter_app, filter_cons, decide_False by tauto.
    by rewrite filter_nil, app_nil_r.
Qed.

(** X15: ticking a participant in the creation form puts the id behind the
    last selected id when it is not selected, and takes out every occurrence
    of it when it is; the other ids keep their selection and their order,
    the selection stays free of repetitions, and ticking twice an id that
    was not selected gives back the selection. *)
Theorem participant_selection_toggles (participantIds : list string)
    (participantId : string) :
  (participantId ∉ participantIds →
   handleParticipantSelection participantIds participantId
   = participantIds ++ [participantId])
  ∧ (participantId ∈ participantIds →
     handleParticipantSelection participantIds participantId
     = filter (λ x, x ≠ participantId) participantIds)
  ∧ (participantId ∈ handleParticipantSelection participantIds participantId
     ↔ participantId ∉ participantIds)
  ∧ filter (λ x, x ≠ participantId)
           (handleParticipantSelection participantIds participantId)
    = filter (λ x, x ≠ participantId) participantIds
  ∧ (∀ x, x ≠ participantId →
       x ∈ handleParticipantSelection participantIds participantId
       ↔ x ∈ participantIds)
  ∧ (NoDup participantIds →
     NoDup (handleParticipantSelection participantIds participantId))
  ∧ (participantId ∉ participantIds →
     handleParticipantSelection
       (handleParticipantSelection participantIds participantId) participantId
     = participantIds).
Proof.
  split_and!.
  - intros Hout. unfold handleParticipantSelection. by rewrite decide_False.
  - intros Hin. unfold handleParticipantSelection. by rewrite decide_True.
  - unfold handleParticipantSelection. case_decide as Hin.
    + rewrite list_elem_of_filter. tauto.
    + rewrite elem_of_app, list_elem_of_singleton. tauto.
  - apply toggle_filter_other.
  - intros x Hx. unfold handleParticipantSelection. case_decide.
    + rewrite list_elem_of_filter. tauto.
    + rewrite elem_of_app, list_elem_of_singleton. tauto.
  - intros Hnd. unfold handleParticipantSelection. case_decide as Hin.
    + by apply NoDup_filter.
    + apply NoDup_app. split_and!; [done| |apply NoDup_singleton].
      intros x Hx ->%list_elem_of_singleton. done.
  - intros Hout. unfold handleParticipantSelection.
    destruct (decide (participantId ∈ participantIds)) as [?|_]; [done|].
    rewrite decide_True by (rewrite elem_of_app, list_elem_of_singleton; auto).
    rewrite filter_app, filter_cons, decide_False by tauto.
    rewrite filter_nil, app_nil_r. apply filter_all, Forall_forall.
    intros x Hx ->. done.
Qed.

Lemma last_two_drop (l : list string) :
  (2 ≤ length l)%nat →
  [ l !!! (length l - 2)%nat; l !!! (length l - 1)%nat ]
  = drop (length l - 2) l.
Proof.
  intros Hlen. apply list_eq. intros i. rewrite lookup_drop.
  destruct i as [|[|i]]; simpl.
  - rewrite Nat.add_0_r. symmetry. apply list_lookup_lookup_total_lt. lia.
  - replace (length l - 2 + 1)%nat with (length l - 1)%nat by lia.
    symmetry. apply list_lookup_lookup_total_lt. lia.
  - symmetry. apply lookup_ge_None_2. lia.
Qed.

Lemma handlePlayerSelection_drop (playerIds : list string) (playerId : string) :
  handlePlayerSelection playerIds playerId
  = drop (length (handleParticipantSelection playerIds playerId) - 2)
         (handleParticipantSelection playerIds playerId).
Proof.
  unfold handlePlayerSelection.
  fold (handleParticipantSelection playerIds playerId).
  case_decide as Hlen.
  - apply last_two_drop. lia.
  - replace (length (handleParticipantSelection playerIds playerId) - 2)%nat
      with 0%nat by lia. done.
Qed.

(** X16: the selection of the players of a team never holds more than two
    ids: it is the last two ids of what ticking gives.  So a newly ticked
    player is always kept as the last one, a ticked third player pushes out
    the one selected first, an unticked player is never kept, and a
    selection free of repetitions stays so. *)
Theorem player_selection_keeps_last_two (playerIds : list string)
    (playerId : string) :
  (length (handlePlayerSelection playerIds playerId) ≤ 2)%nat
  ∧ handlePlayerSelection playerIds playerId
    = drop (length (handleParticipantSelection playerIds playerId) - 2)
           (handleParticipantSelection playerIds playerId)
  ∧ (playerId ∉ playerIds →
     last (handlePlayerSelection playerIds playerId) = Some playerId)
  ∧ (playerId ∈ playerIds →
     playerId ∉ handlePlayerSelection playerIds playerId)
  ∧ (NoDup playerIds → NoDup (handlePlayerSelection playerIds playerId))
  ∧ (∀ a b, playerId ∉ [a; b] →
       handlePlayerSelection [a; b] playerId = [b; playerId]).
Proof.
  rewrite handlePlayerSelection_drop.
  set (new := handleParticipantSelection playerIds playerId).
  split_and!.
  - rewrite length_drop. lia.
  - done.
  - intros Hout. subst new. unfold handleParticipantSelection.
    rewrite decide_False by done.
    rewrite length_app. simpl length.
    rewrite drop_app_le by lia.
    apply last_snoc.
  - intros Hin Hkept.
    pose proof (elem_of_sublist _ _ _ Hkept (sublist_drop new _)) as Hnew.
    subst new. revert Hnew. unfold handleParticipantSelection.
    rewrite decide_True by done. rewrite list_elem_of_filter. tauto.
  - intros Hnd. apply (sublist_NoDup _ new); [|apply sublist_drop].
    subst new. unfold handleParticipantSelection. case_decide as Hin.
    + by apply NoDup_filter.
    + apply NoDup_app. split_and!; [done| |apply NoDup_singleton].
      intros x Hx ->%list_elem_of_singleton. done.
  - intros a b Hout. rewrite handlePlayerSelection_drop.
    unfold handleParticipantSelection. by rewrite decide_False.
Qed.

(** ** Extras on the saving of a score *)

Lemma updatedMatchesOf_insert matches e h a i :
  NoDup (md_id <$> matches) → matches !! i = Some e →
  updatedMatchesOf matches e h a
  = <[i := {| md_id := md_id e; md_match := withScore h a (md_match e) |}]>
      matches.
Proof.
  intros Hnd Hi. apply list_eq. intros j. unfold updatedMatchesOf.
  rewrite list_lookup_fmap.
  destruct (decide (i = j)) as [<-|Hij].
  - rewrite list_lookup_insert_eq by (by eapply lookup_lt_Some).
    rewrite Hi. simpl. by rewrite decide_True.
  - rewrite list_lookup_insert_ne by done.
    destruct (matches !! j) as [m|] eqn:Hj; simpl; [|done].
    rewrite decide_False; [done|]. intros Heq. apply Hij.
    apply (NoDup_lookup _ _ _ (md_id e) Hnd);
      [rewrite list_lookup_fmap, Hi|rewrite list_lookup_fmap, Hj; simpl;
                                     rewrite Heq]; done.
Qed.

Lemma updatedMatchesOf_absent matches e h a :
  md_id e ∉ md_id <$> matches → updatedMatchesOf matches e h a = matches.
Proof.
  intros Hout. unfold updatedMatchesOf.
  rewrite <- (list_fmap_id matches) at 2. apply Forall_fmap_ext_1.
  apply Forall_forall. intros m Hm. rewrite decide_False; [done|].
  intros Heq. apply Hout. rewrite <- Heq. by apply list_elem_of_fmap_2.
Qed.

Lemma withScore_completedWith h a m :
  withScore h a m = completedWith m (default 0 h) (default 0 a).
Proof.
  unfold withScore, completedWith, orFallback.
  destruct h as [h|], a as [a|]; simpl; repeat case_decide; by subst.
Qed.

(** X17: in [updatedMatches] the documents keep their ids and their order;
    every document carrying the id of the edited match becomes completed
    with the two scores that were parsed, zero standing in for an input
    that did not parse, and keeps its other fields; every other document
    stays as it is.  So when the ids are pairwise distinct exactly the
    document of the edited match changes, and when no document has the id
    of the edited match nothing changes. *)
Theorem score_update_changes_one_document (matches : list MatchDoc)
    (editingMatch : MatchDoc) (parsedHome parsedAway : option Z) :
  md_id <$> updatedMatchesOf matches editingMatch parsedHome parsedAway
  = md_id <$> matches
  ∧ (∀ j d, matches !! j = Some d →
       updatedMatchesOf matches editingMatch parsedHome parsedAway !! j
       = Some (if decide (md_id d = md_id editingMatch)
               then {| md_id := md_id d;
                       md_match := completedWith (md_match d)
                                     (default 0 parsedHome)
                                     (default 0 parsedAway) |}
               else d))
  ∧ (NoDup (md_id <$> matches) →
     ∀ i, matches !! i = Some editingMatch →
       updatedMatchesOf matches editingMatch parsedHome parsedAway
       = <[i := {| md_id := md_id editingMatch;
                   md_match := completedWith (md_match editingMatch)
                                 (default 0 parsedHome)
                                 (default 0 parsedAway) |}]> matches)
  ∧ (md_id editingMatch ∉ md_id <$> matches →
     updatedMatchesOf matches editingMatch parsedHome parsedAway = matches).
Proof.
  split_and!.
  - unfold updatedMatchesOf. rewrite <- list_fmap_compose.
    apply list_fmap_ext. intros j m _. unfold compose.
    by destruct (decide (md_id m = md_id editingMatch)).
  - intros j d Hj. unfold updatedMatchesOf.
    rewrite list_lookup_fmap, Hj. simpl.
    case_decide; by rewrite ?withScore_completedWith.
  - intros Hnd i Hi. rewrite <- withScore_completedWith.
    by apply updatedMatchesOf_insert.
  - apply updatedMatchesOf_absent.
Qed.

Lemma groupMatches_insert ms i m0 scored gn :
  ms !! i = Some m0 → ¬ isGroupMatch gn m0 → isGroupMatch gn scored →
  groupMatches (<[i := scored]> ms) gn ≡ₚ groupMatches ms gn ++ [scored].
Proof.
  intros Hi Hm0 Hsc. unfold groupMatches.
  rewrite insert_take_drop by (by eapply lookup_lt_Some).
  rewrite <- (take_drop_middle ms i m0 Hi) at 3.
  rewrite !filter_app, !filter_cons, decide_True, decide_False by done.
  rewrite <- app_assoc. apply Permutation_app_head.
  by rewrite <- Permutation_cons_append.
Qed.

Lemma withScore_counted h a m : isGroupMatch (m_groupName m) (withScore h a m).
Proof. by split. Qed.

(** X18: saving the score of a fixture that was not yet completed, in a
    group whose ids are pairwise distinct, and with the sets of the counted
    fixtures adding up to no more than [2^53], changes the rows before the
    ranking by that one fixture and nothing else: every row is the row of
    before with the fixture applied to it, completed with the two scores
    that were parsed (zero for an input that did not parse).  That is the
    home update with these scores for the home side, the away update for
    the away side, and no change for every other participant. *)
Theorem saving_score_credits_one_fixture (group : Group)
    (matches : list MatchDoc) (editingMatch : MatchDoc)
    (parsedHome parsedAway : option Z) (i : nat) :
  NoDup (md_id <$> matches) →
  matches !! i = Some editingMatch →
  m_status (md_match editingMatch) ≠ "completed" →
  NoDup (g_participantIds group) →
  safeScores
    (groupMatches
       (md_match <$> updatedMatchesOf matches editingMatch parsedHome parsedAway)
       (m_groupName (md_match editingMatch))) →
  foldedStandings group
    (md_match <$> updatedMatchesOf matches editingMatch parsedHome parsedAway)
    (m_groupName (md_match editingMatch))
  = (λ s, specStep s (completedWith (md_match editingMatch)
                        (default 0 parsedHome) (default 0 parsedAway)))
      <$> foldedStandings group (md_match <$> matches)
            (m_groupName (md_match editingMatch))
  ∧ (∀ s, participantId s ≠ m_homeParticipantId (md_match editingMatch) →
          participantId s ≠ m_awayParticipantId (md_match editingMatch) →
          specStep s (completedWith (md_match editingMatch)
                        (default 0 parsedHome) (default 0 parsedAway)) = s)
  ∧ (∀ s, participantId s = m_homeParticipantId (md_match editingMatch) →
          participantId s ≠ m_awayParticipantId (md_match editingMatch) →
          specStep s (completedWith (md_match editingMatch)
                        (default 0 parsedHome) (default 0 parsedAway))
          = specCredit (default 0 parsedHome) (default 0 parsedAway) s)
  ∧ (∀ s, participantId s ≠ m_homeParticipantId (md_match editingMatch) →
          participantId s = m_awayParticipantId (md_match editingMatch) →
          specStep s (completedWith (md_match editingMatch)
                        (default 0 parsedHome) (default 0 parsedAway))
          = specCredit (default 0 parsedAway) (default 0 parsedHome) s).
Proof.
  intros Hids Hi Hpending Hnd Hsafe. split_and!.
  - revert Hsafe. rewrite (updatedMatchesOf_insert _ _ _ _ i) by done.
    rewrite list_fmap_insert. simpl.
    set (scored := withScore parsedHome parsedAway (md_match editingMatch)).
    set (gn := m_groupName (md_match editingMatch)).
    intros Hsafe.
    assert (groupMatches (<[i := scored]> (md_match <$> matches)) gn
            ≡ₚ groupMatches (md_match <$> matches) gn ++ [scored]) as Hperm.
    { apply (groupMatches_insert _ i (md_match editingMatch)).
      - by rewrite list_lookup_fmap, Hi.
      - by intros [_ ?].
      - apply withScore_counted. }
    pose proof (safeScores_perm _ _ Hperm Hsafe) as Hsafe'.
    assert (safeScores (groupMatches (md_match <$> matches) gn)) as Hbefore.
    { unfold safeScores in *. rewrite total_snoc in Hsafe'.
      unfold setsPlayed at 2 in Hsafe'. lia. }
    rewrite !foldedStandings_tallied, !tallied_NoDup by done.
    rewrite <- list_fmap_compose. apply list_fmap_ext. intros j pid _. simpl.
    rewrite (tally_perm _ _ pid Hsafe Hperm).
    destruct (tally_spec _ pid Hsafe') as [-> _].
    destruct (tally_spec _ pid Hbefore) as [-> _].
    rewrite foldl_snoc. subst scored. by rewrite withScore_completedWith.
  - intros s Hh Ha. unfold specStep. simpl.
    by rewrite !decide_False by congruence.
  - intros s Hh Ha. unfold specStep. simpl.
    destruct (decide (m_homeParticipantId (md_match editingMatch)
                      = participantId s)); [|congruence].
    destruct (decide (m_awayParticipantId (md_match editingMatch)
                      = participantId s)); [congruence|done].
  - intros s Hh Ha. unfold specStep. simpl.
    destruct (decide (m_homeParticipantId (md_match editingMatch)
                      = participantId s)); [congruence|].
    destruct (decide (m_awayParticipantId (md_match editingMatch)
                      = participantId s)); [done|congruence].
Qed.

Lemma saving_score_credits_one_fixture_witness :
  foldedStandings scenarioGroup
    (md_match <$> updatedMatchesOf pendingDocs pendingDoc (Some 3) None)
    "Grupo A"
  = (λ s, specStep s (completedWith (md_match pendingDoc) 3 0))
      <$> foldedStandings scenarioGroup (md_match <$> pendingDocs) "Grupo A".
Proof.
  assert (NoDup (md_id <$> pendingDocs)) as Hids
    by (apply (bool_decide_unpack _); vm_compute; exact I).
  assert (NoDup (g_participantIds scenarioGroup)) as Hnd
    by (apply (bool_decide_unpack _); vm_compute; exact I).
  assert (m_status (md_match pendingDoc) ≠ "completed") as Hp
    by discriminate.
  assert (safeScores
            (groupMatches
               (md_match <$> updatedMatchesOf pendingDocs pendingDoc (Some 3) None)
               (m_groupName (md_match pendingDoc)))) as Hsafe
    by (apply (bool_decide_unpack _); vm_compute; exact I).
  exact (proj1 (saving_score_credits_one_fixture scenarioGroup pendingDocs
                  pendingDoc (Some 3) None 1%nat Hids eq_refl Hp Hnd Hsafe)).
Defined.

(** X19: saving a score never changes the groups, the configuration or the
    participants of the championship, and keeps, unchanged and in order,
    every standings entry filed under a name other than the group name of
    the edited match. *)
Theorem score_save_frame (champ : Championship) (matches : list MatchDoc)
    (editingMatch : MatchDoc) (parsedHome parsedAway : option Z) :
  c_groups (handleSaveScore champ matches (Some editingMatch)
              parsedHome parsedAway).2 = c_groups champ
  ∧ c_groupStage (handleSaveScore champ matches (Some editingMatch)
                    parsedHome parsedAway).2 = c_groupStage champ
  ∧ c_participantIds (handleSaveScore champ matches (Some editingMatch)
                        parsedHome parsedAway).2 = c_participantIds champ
  ∧ (∀ n, n ≠ m_groupName (md_match editingMatch) →
       filter (λ s, s_groupName s = n)
              (c_standings (handleSaveScore champ matches (Some editingMatch)
                              parsedHome parsedAway).2)
       = filter (λ s, s_groupName s = n) (c_standings champ))
  ∧ (m_stage (md_match editingMatch) ≠ "group" →
     (handleSaveScore champ matches (Some editingMatch)
        parsedHome parsedAway).2 = champ).
Proof.
  unfold handleSaveScore. simpl.
  case_decide as Hstage; [|by split_and!].
  unfold handleRecalculateStandings.
  destruct (list_find _ (c_groups champ)) as [[j group]|]; simpl;
    split_and!; try done.
  intros n Hn. by apply upsert_filter_other.
Qed.

(** ** Extras on the saving of the configuration *)

(** X20: an input for the number of groups that does not parse, or parses
    to zero, is stored as one, and any other number as it is, a negative one
    included; likewise the number advancing falls back to two and the sets
    of a match to three.  The other settings are those of the form, and the
    groups, standings and participants are not touched.  So the saved
    number of groups is never zero, and with two or more participants the
    generation of groups that follows is refused exactly when the input
    parsed to a negative number, and throws exactly when it parsed to [2^32]
    or more. *)
Theorem config_group_count_fallback (champ : Championship)
    (currentGroupStage : GroupStage)
    (parsedSets parsedNumGroups parsedNumAdvancing : option Z)
    (participants shuffled : list Participant) :
  (2 ≤ length participants)%nat →
  (parsedNumGroups = None ∨ parsedNumGroups = Some 0 →
   numGroups (c_groupStage (handleSaveConfig champ currentGroupStage parsedSets
                              parsedNumGroups parsedNumAdvancing).2) = 1)
  ∧ (∀ n, parsedNumGroups = Some n → n ≠ 0 →
       numGroups (c_groupStage (handleSaveConfig champ currentGroupStage
                                  parsedSets parsedNumGroups
                                  parsedNumAdvancing).2) = n)
  ∧ numGroups (c_groupStage (handleSaveConfig champ currentGroupStage parsedSets
                               parsedNumGroups parsedNumAdvancing).2) ≠ 0
  ∧ (parsedNumAdvancing = None ∨ parsedNumAdvancing = Some 0 →
     numAdvancing (c_groupStage (handleSaveConfig champ currentGroupStage
                                   parsedSets parsedNumGroups
                                   parsedNumAdvancing).2) = 2)
  ∧ (∀ n, parsedNumAdvancing = Some n → n ≠ 0 →
       numAdvancing (c_groupStage (handleSaveConfig champ currentGroupStage
                                     parsedSets parsedNumGroups
                                     parsedNumAdvancing).2) = n)
  ∧ (parsedSets = None ∨ parsedSets = Some 0 →
     (handleSaveConfig champ currentGroupStage parsedSets parsedNumGroups
        parsedNumAdvancing).1 = 3)
  ∧ (∀ n, parsedSets = Some n → n ≠ 0 →
       (handleSaveConfig champ currentGroupStage parsedSets parsedNumGroups
          parsedNumAdvancing).1 = n)
  ∧ generated (c_groupStage (handleSaveConfig champ currentGroupStage parsedSets
                               parsedNumGroups parsedNumAdvancing).2)
    = generated currentGroupStage
  ∧ matchFormat (c_groupStage (handleSaveConfig champ currentGroupStage
                                 parsedSets parsedNumGroups
                                 parsedNumAdvancing).2)
    = matchFormat currentGroupStage
  ∧ c_groups (handleSaveConfig champ currentGroupStage parsedSets
                parsedNumGroups parsedNumAdvancing).2 = c_groups champ
  ∧ c_standings (handleSaveConfig champ currentGroupStage parsedSets
                   parsedNumGroups parsedNumAdvancing).2 = c_standings champ
  ∧ c_participantIds (handleSaveConfig champ currentGroupStage parsedSets
                        parsedNumGroups parsedNumAdvancing).2
    = c_participantIds champ
  ∧ ((handleGenerateGroups
        (handleSaveConfig champ currentGroupStage parsedSets parsedNumGroups
           parsedNumAdvancing).2 participants shuffled).1 = Some groupsAlert
     ↔ ∃ n, parsedNumGroups = Some n ∧ n < 0)
  ∧ ((handleGenerateGroups
        (handleSaveConfig champ currentGroupStage parsedSets parsedNumGroups
           parsedNumAdvancing).2 participants shuffled).1 = Some rangeError
     ↔ ∃ n, parsedNumGroups = Some n ∧ 2 ^ 32 ≤ n).
Proof.
  intros Hn.
  assert (∀ d p, (p = None ∨ p = Some 0 → orFallback d p = d)
                 ∧ (∀ n, p = Some n → n ≠ 0 → orFallback d p = n)) as Hfall.
  { intros d p. unfold orFallback. split.
    - by intros [-> | ->].
    - intros n -> Hn0. by rewrite decide_False. }
  pose proof (generate_guard_cases
                (handleSaveConfig champ currentGroupStage parsedSets
                   parsedNumGroups parsedNumAdvancing).2
                participants shuffled Hn) as [Halert Hthrow].
  simpl in Halert, Hthrow.
  split_and!; try done; try apply Hfall.
  - unfold handleSaveConfig, orFallback. simpl.
    destruct parsedNumGroups as [n|]; [case_decide|]; lia.
  - rewrite Halert. unfold orFallback.
    destruct parsedNumGroups as [n|]; [destruct (decide (n = 0))|].
    + split; [lia|]. intros (x & Hx & Hlt). injection Hx as <-. lia.
    + split; [intros Hlt; exists n; split; [done|lia]|].
      intros (x & Hx & Hlt). injection Hx as <-. lia.
    + split; [lia|]. by intros (x & Hx & _).
  - rewrite Hthrow. unfold orFallback.
    destruct parsedNumGroups as [n|]; [destruct (decide (n = 0))|].
    + split; [lia|]. intros (x & Hx & Hlt). injection Hx as <-. lia.
    + split; [intros Hlt; exists n; split; [done|lia]|].
      intros (x & Hx & Hlt). injection Hx as <-. lia.
    + split; [lia|]. by intros (x & Hx & _).
Qed.

Lemma config_group_count_fallback_witness :
  (handleGenerateGroups
     (handleSaveConfig scenarioChampionship
        (c_groupStage scenarioChampionship) (Some 3) (Some (-2)) None).2
     sampleParticipants sampleShuffled).1 = Some groupsAlert.
Proof.
  assert (2 ≤ length sampleParticipants)%nat as Hn by (simpl; lia).
  destruct (config_group_count_fallback scenarioChampionship
              (c_groupStage scenarioChampionship) (Some 3) (Some (-2)) None
              sampleParticipants sampleShuffled Hn)
    as (_ & _ & _ & _ & _ & _ & _ & _ & _ & _ & _ & _ & Halert & _).
  apply Halert. exists (-2). split; [reflexivity|lia].
Defined.

(** ** The table of a completed round robin *)

Lemma foldl_tallyStep_played ms s :
  played (foldl tallyStep s ms)
  = played s
    + Z.of_nat (length (filter (λ m, m_homeParticipantId m = participantId s) ms))
    + Z.of_nat (length (filter (λ m, m_awayParticipantId m = participantId s) ms)).
Proof.
  revert s. induction ms as [|m ms IH]; intros s; [simpl; lia|].
  cbn [foldl]. rewrite IH, tallyStep_id.
  rewrite (tallyStep_field played (λ _, 1) (λ _, 1)) by done.
  rewrite !(filter_cons _ m ms).
  repeat case_decide; simpl length; lia.
Qed.

Lemma count_sides (P : string * string → Prop) `{∀ x, Decision (P x)}
    (ms ms' : list Match) :
  sides <$> ms ≡ₚ sides <$> ms' →
  length (filter (λ m, P (sides m)) ms) = length (filter (λ m, P (sides m)) ms').
Proof.
  intros Hp.
  rewrite !(filter_fmap_length sides P). by rewrite Hp.
Qed.

(** X21: once the completed fixtures of a group with pairwise distinct ids
    are exactly the generated ones, every row of the table shows [n - 1]
    games in the single format and [2 * (n - 1)] in the home-and-away
    format. *)
Theorem complete_round_robin_games (participantMap : gmap string Participant)
    (format : string) (group : Group) (updatedMatches : list Match)
    (groupName : string) :
  NoDup (g_participantIds group) →
  sides <$> groupMatches updatedMatches groupName
  ≡ₚ sides <$> groupFixtures participantMap format group →
  format = "single" ∨ format = "home_and_away" →
  Forall (λ s, played s
               = (if decide (format = "home_and_away") then 2 else 1)
                 * (Z.of_nat (length (g_participantIds group)) - 1))
         (standingsTable group updatedMatches groupName).
Proof.
  intros Hnd Hsides Hformat.
  rewrite standingsTable_perm, foldedStandings_tallied, tallied_NoDup by done.
  rewrite <- list_fmap_compose. apply Forall_fmap, Forall_forall.
  intros p Hp. unfold compose. simpl. unfold tally.
  rewrite foldl_tallyStep_played. simpl.
  assert (length (filter (λ m, m_homeParticipantId m = p)
                         (groupMatches updatedMatches groupName))
          = length (filter (λ pr : string * string, pr.1 = p)
                           (schedule format (g_participantIds group)))) as ->.
  { etrans; [exact (count_sides (λ pr, pr.1 = p) _ _ Hsides)|].
    etrans; [exact (filter_fmap_length sides (λ pr, pr.1 = p) _)|].
    by rewrite groupFixtures_sides. }
  assert (length (filter (λ m, m_awayParticipantId m = p)
                         (groupMatches updatedMatches groupName))
          = length (filter (λ pr : string * string, pr.2 = p)
                           (schedule format (g_participantIds group)))) as ->.
  { etrans; [exact (count_sides (λ pr, pr.2 = p) _ _ Hsides)|].
    etrans; [exact (filter_fmap_length sides (λ pr, pr.2 = p) _)|].
    by rewrite groupFixtures_sides. }
  assert (0 < length (g_participantIds group))%nat
    by (destruct (g_participantIds group); [by apply elem_of_nil in Hp|simpl; lia]).
  pose proof (orderedPairs_degree p _ Hnd Hp) as Hdeg.
  destruct Hformat as [-> | ->].
  - rewrite schedule_single, decide_False by done. lia.
  - rewrite decide_True by done. unfold schedule.
    destruct (decide ("home_and_away" = "home_and_away")) as [_|?]; [|done].
    rewrite !schedule_return_count. simpl. lia.
Qed.

Lemma complete_round_robin_games_witness :
  Forall (λ s, played s = 2)
         (standingsTable scenarioGroup scenarioMatches "Grupo A").
Proof.
  assert (NoDup (g_participantIds scenarioGroup)) as Hnd
    by (apply (bool_decide_unpack _); vm_compute; exact I).
  exact (complete_round_robin_games ∅ "single" scenarioGroup scenarioMatches
           "Grupo A" Hnd (reflexivity _) (or_introl eq_refl)).
Defined.
